(** * bplogsmooth: logarithmic smoothing of a band-pass spectrum

    Shallow embedding of [deltasigma/_bplogsmooth.py] (python-deltasigma,
    a port of R. Schreier's delta sigma toolbox) and proofs about the bin
    edges it generates.

    Modelling conventions.
    - Python integers are [Z].  Python floats that carry a frequency or an
      intermediate of the step growth ([f0], [f0*N], [n*1.1], [m + n/2.])
      are exact rationals [Q]; spectrum samples are complex numbers over
      [R].  Rounding error of binary floating point is not modelled: where
      the binary64 product [f0*N] of line 47 is a rounding tie, the [bin0]
      of the code can differ by one from the one computed here.  The
      theorems on the bin edges are proved for whatever integer [bin0] is
      (see [bin_edges_run]).
    - A call either returns, raises a Python exception, or runs forever;
      the two [while] loops are given fuel and running out of fuel is the
      third outcome [Diverges].
    - Array indices computed as integer-valued floats ([startbin]) index [X]
      the way the NumPy releases contemporary with the source accepted
      them, that is, as the integers they are equal to. *)

From Stdlib Require Import ZArith QArith Qround Qminmax List Lia Bool.
From Stdlib Require Import Reals Lra Lqa.
Import ListNotations.
Open Scope Z_scope.

(** ** Outcomes of a Python call *)

Inductive exn : Set :=
| AssertionError
| IndexError.

Inductive outcome (A : Type) : Type :=
| Returns (a : A)
| Raises (e : exn)
| Diverges.

Arguments Returns {A} a.
Arguments Raises {A} e.
Arguments Diverges {A}.

Definition obind {A B : Type} (c : outcome A) (k : A -> outcome B) : outcome B :=
  match c with
  | Returns a => k a
  | Raises e => Raises e
  | Diverges => Diverges
  end.

Notation "x <- c ;; k" := (obind c (fun x => k))
  (at level 61, c at next level, right associativity).

(** [assert b] *)
Definition py_assert (b : bool) : outcome unit :=
  if b then Returns tt else Raises AssertionError.

(** [l[-1]] *)
Definition last_elt (l : list Z) : outcome Z :=
  match rev l with
  | [] => Raises IndexError
  | x :: _ => Returns x
  end.

(** A loop that ran out of fuel has not finished. *)
Definition of_fuel {A : Type} (o : option A) : outcome A :=
  match o with
  | Some a => Returns a
  | None => Diverges
  end.

(** ** Helpers imported by the module *)

(** Modelled from the spec: [mround] of [_utils.py] is not part of the
    sources at hand.  The spec describes it as nearest-integer rounding with
    one fixed tie-breaking rule; the rule taken here is MATLAB's [round]
    (halves away from zero).  The general theorems below use [mround] only
    through [mround_nearest], which holds for every nearest-integer
    rounding. *)
Definition mround (x : Q) : Z :=
  if Qle_bool 0 x then Qfloor (x + (1 # 2)) else Qceiling (x - (1 # 2)).

(** Modelled from the spec: [dbp] of [_dbp.py] is not part of the sources
    at hand.  The spec describes it as the conversion of a power ratio to
    decibels, [10*log10(ratio)]. *)
Definition dbp (x : R) : R := (10 * (ln x / ln 10))%R.

(** Strict comparison of two floats. *)
Definition Qlt_bool (a b : Q) : bool := negb (Qle_bool b a).

(** [np.arange(start, stop, step)] on integers:
    [ceil((stop - start)/step)] elements [start + i*step]. *)
Definition arange (start stop step : Z) : list Z :=
  let len :=
    if 0 <? step then (stop - start + step - 1) / step
    else if step <? 0 then (start - stop - step - 1) / (- step)
    else 0 in
  map (fun i => start + Z.of_nat i * step) (seq 0 (Z.to_nat len)).

(** ** Complex samples *)

Definition C : Type := (R * R)%type.

Definition Cmul (a b : C) : C :=
  (fst a * fst b - snd a * snd b, fst a * snd b + snd a * fst b)%R.

(** [z ** 2.] *)
Definition Csqr (z : C) : C := Cmul z z.

(** [z / w] for a real [w] *)
Definition Cscale (z : C) (w : R) : C := (fst z / w, snd z / w)%R.

(** [abs(z)] *)
Definition Cmod (z : C) : R := sqrt (fst z * fst z + snd z * snd z).

(** [numpy.linalg.norm(v, ord=1)]: the sum of the moduli. *)
Definition norm1 (v : list C) : R :=
  fold_right (fun z acc => (Cmod z + acc)%R) 0%R v.

(** [X[a:b]] with Python's treatment of negative and of too large
    indices. *)
Definition py_index (len i : Z) : Z :=
  if i <? 0 then Z.max (i + len) 0 else Z.min i len.

Definition py_slice {A : Type} (X : list A) (a b : Z) : list A :=
  let len := Z.of_nat (length X) in
  let a' := py_index len a in
  let b' := py_index len b in
  firstn (Z.to_nat (b' - a')) (skipn (Z.to_nat a') X).

(** ** The bin edges (lines 42 to 71) *)

(** [n = mround(min(n*1.1, 2**10))] *)
Definition grow (n : Z) : Z :=
  mround (Qmin (inject_Z n * (11 # 10)) (inject_Z (2 ^ 10))).

(** [while m + n/2. < N/2.: usb1 = usb1 ++ [m]; n = grow n; m = m + int(n)] *)
Fixpoint usb_while (fuel : nat) (N : Z) (usb1 : list Z) (n m : Z)
  : option (list Z) :=
  if Qlt_bool (inject_Z m + inject_Z n / 2) (inject_Z N / 2) then
    match fuel with
    | O => None
    | S fuel' =>
        let usb1 := usb1 ++ [m] in
        let n := grow n in
        let m := m + n in
        usb_while fuel' N usb1 n m
    end
  else Some usb1.

(** [while m - n/2. > 1: lsb2 = lsb2 ++ [m]; n = grow n; m = m - int(n)] *)
Fixpoint lsb_while (fuel : nat) (lsb2 : list Z) (n m : Z)
  : option (list Z) :=
  if Qlt_bool 1 (inject_Z m - inject_Z n / 2) then
    match fuel with
    | O => None
    | S fuel' =>
        let lsb2 := lsb2 ++ [m] in
        let n := grow n in
        let m := m - n in
        lsb_while fuel' lsb2 n m
    end
  else Some lsb2.

(** Fuel handed to the two loops by [bin_edges]: the span left at loop
    entry.  It is shown below that it is never used up. *)
Definition usb_fuel (N m : Z) : nat := Z.to_nat (N - 2 * m).
Definition lsb_fuel (m : Z) : nat := Z.to_nat (2 * m).

(** The local variables of [bplogsmooth] once line 71 has run. *)
Record locals : Type := mkLocals {
  loc_N : Z;
  loc_N2 : Z;
  loc_bin0 : Z;
  loc_bin1 : Z;
  loc_bind : Z;
  usb1 : list Z;
  usb2 : list Z;
  lsb1 : list Z;
  lsb2 : list Z;
  startbin : list Z;
  stopbin : list Z
}.

Definition bin_edges (N tbin : Z) (f0 : Q) : outcome locals :=
  let N2 := N / 2 in
  let n := 8 in
  let bin0 := mround (f0 * inject_Z N) in
  _ <- py_assert (bin0 <? tbin) ;;
  let bin1 := ((tbin - bin0) mod n) + bin0 in
  let bind := bin1 - bin0 in
  let usb1 := arange bin1 (tbin + 1) n ++ arange (tbin + 3) (tbin + bind + 1) 8 in
  u <- last_elt usb1 ;;
  let m := u + n in
  usb1 <- of_fuel (usb_while (usb_fuel N m) N usb1 n m) ;;
  let usb2 := map (fun x => x - 1) (tl usb1) ++ [N2] in
  let n := 8 in
  let lsb2 := map (fun x => x - 1) (arange bin1 (bin1 - 2 * bind + 1) (- n)) in
  l <- last_elt lsb2 ;;
  let m := l - n in
  lsb2 <- of_fuel (lsb_while (lsb_fuel m) lsb2 n m) ;;
  let lsb1 := map (fun x => x + 1) (tl lsb2) ++ [1] in
  let startbin := map (fun x => x - 1) (rev lsb1 ++ usb1) in
  let stopbin := map (fun x => x - 1) (rev lsb2 ++ usb2) in
  Returns (mkLocals N N2 bin0 bin1 bind usb1 usb2 lsb1 lsb2 startbin stopbin).

(** ** The whole routine *)

(** [X = carray(X).squeeze(); N = X.shape[0]]: squeezing a one-element
    array leaves a zero-dimensional one, whose shape tuple is empty. *)
Definition shape0 {A : Type} (X : list A) : outcome Z :=
  match X with
  | [_] => Raises IndexError
  | _ => Returns (Z.of_nat (length X))
  end.

Definition bplogsmooth_locals (X : list C) (tbin : Z) (f0 : Q) : outcome locals :=
  N <- shape0 X ;;
  bin_edges N tbin f0.

(** [f = ((startbin + stopbin)/2.)/N - f0] *)
Definition centre (N : Z) (f0 : Q) (a b : Z) : Q :=
  (inject_Z (a + b) / 2 / inject_Z N - f0)%Q.

(** The argument of [dbp] at line 77:
    [norm(X[a:b+1]**2. / (b - a + 1.), ord=1)] *)
Definition bin_power (X : list C) (a b : Z) : R :=
  norm1 (map (fun z => Cscale (Csqr z) (IZR (b - a + 1))) (py_slice X a (b + 1))).

Definition bplogsmooth (X : list C) (tbin : Z) (f0 : Q)
  : outcome (list Q * list R) :=
  l <- bplogsmooth_locals X tbin f0 ;;
  let bounds := combine (startbin l) (stopbin l) in
  let f := map (fun ab => centre (loc_N l) f0 (fst ab) (snd ab)) bounds in
  let p := map (fun ab => dbp (bin_power X (fst ab) (snd ab))) bounds in
  Returns (f, p).

(** ** Vocabulary of the properties *)

(** The elements the upper loop appends, as a relation: started with step
    [n] at position [m] it appends [ext].  The lower loop is the same walk
    on negated positions with the bound [- 2]. *)
Inductive grown (N : Z) : Z -> Z -> list Z -> Prop :=
| grown_stop n m : N <= 2 * m + n -> grown N n m []
| grown_step n m ext :
    2 * m + n < N ->
    grown N (grow n) (m + grow n) ext ->
    grown N n m (m :: ext).

(** The steps [n], [grow n], [grow (grow n)], ... *)
Fixpoint steps (k : nat) (n : Z) : list Z :=
  match k with
  | O => []
  | S k' => n :: steps k' (grow n)
  end.

(** [a], [a + 8], ..., [a + 8*k] *)
Fixpoint stride (k : nat) (a : Z) : list Z :=
  match k with
  | O => [a]
  | S k' => a :: stride k' (a + 8)
  end.

(** Differences of neighbours. *)
Fixpoint diffs (l : list Z) : list Z :=
  match l with
  | [] => []
  | a :: t =>
      match t with
      | [] => []
      | b :: _ => (b - a) :: diffs t
      end
  end.

(** The 0-indexed sample positions at which a bin starts, followed by the
    position after the last bin. *)
Definition boundaries (l : locals) : list Z :=
  0 :: rev (lsb2 l) ++ map (fun x => x - 1) (tl (usb1 l)) ++ [loc_N2 l].

(** Number of samples of each bin, in output order. *)
Definition widths (l : locals) : list Z :=
  map (fun ab => snd ab - fst ab + 1) (combine (startbin l) (stopbin l)).

(** The bins of one sideband, ordered from the bin next to the tone
    outwards.  The lower sideband comes first in the output and has as many
    bins as [lsb2] has entries. *)
Definition lower_widths (l : locals) : list Z :=
  rev (firstn (length (lsb2 l)) (widths l)).

Definition upper_widths (l : locals) : list Z :=
  skipn (length (lsb2 l)) (widths l).

(** The tone region fits into the half spectrum: the boundaries laid down
    before either loop runs stay at or above sample 1 on the lower side and
    at or below sample [N2] on the upper side (1-indexed). *)
Definition well_placed (N tbin : Z) (f0 : Q) : Prop :=
  let bin0 := mround (f0 * inject_Z N) in
  let bind := (tbin - bin0) mod 8 in
  let bin1 := bind + bin0 in
  (if 5 <=? bind then 10 else 2) <= bin1 /\
  tbin + (if 3 <=? bind then 3 else 0) <= N / 2.

(** [|z|^2] *)
Definition Cnorm2 (z : C) : R := (fst z * fst z + snd z * snd z)%R.

Definition Rsum (l : list R) : R := fold_right Rplus 0%R l.

(** The samples [X[a]], ..., [X[b]], both ends included; positions outside
    of the array contribute nothing. *)
Definition samples (X : list C) (a b : Z) : list C :=
  flat_map (fun i =>
              let k := a + Z.of_nat i in
              if k <? 0 then []
              else match nth_error X (Z.to_nat k) with
                   | Some z => [z]
                   | None => []
                   end)
           (seq 0 (Z.to_nat (b - a + 1))).

(** The mean squared magnitude of [X[a..b]], as the specification words
    it: the sum of the squared magnitudes over the bin width. *)
Definition mean_power (X : list C) (a b : Z) : R :=
  (Rsum (map Cnorm2 (samples X a b)) / IZR (b - a + 1))%R.

(** A sequence that never decreases, and one that always increases. *)
Definition nondecreasing (l : list Z) : Prop := Forall (fun d => 0 <= d) (diffs l).
Definition increasing (l : list Z) : Prop := Forall (fun d => 0 < d) (diffs l).

Fixpoint Qincreasing (l : list Q) : Prop :=
  match l with
  | [] => True
  | a :: t =>
      match t with
      | [] => True
      | b :: _ => (a < b)%Q /\ Qincreasing t
      end
  end.

(** The upper start edges and the lower stop edges that lines 51 and 62
    lay down when [bind] is not 0, and the record that lines 59 to 71
    build from the two lists the loops leave. *)
Definition usb1_init (tbin bin0 : Z) : list Z :=
  let bind := (tbin - bin0) mod 8 in
  stride (Z.to_nat ((tbin - bin0) / 8)) (bind + bin0)
    ++ (if 3 <=? bind then [tbin + 3] else []).

Definition lsb2_init (tbin bin0 : Z) : list Z :=
  let bind := (tbin - bin0) mod 8 in
  (bind + bin0 - 1) :: (if 5 <=? bind then [bind + bin0 - 9] else []).

Definition assemble (N tbin bin0 : Z) (U L : list Z) : locals :=
  let bind := (tbin - bin0) mod 8 in
  let usb2 := map (fun x => x - 1) (tl U) ++ [N / 2] in
  let lsb1 := map (fun x => x + 1) (tl L) ++ [1] in
  mkLocals N (N / 2) bin0 (bind + bin0) bind U usb2 lsb1 L
           (map (fun x => x - 1) (rev lsb1 ++ U))
           (map (fun x => x - 1) (rev L ++ usb2)).

(** Lines 59 to 71 have been run on two edge lists that meet at the tone:
    the first lower stop edge is the sample before the first upper start
    edge. *)
Definition assembled (l : locals) : Prop :=
  usb2 l = map (fun x => x - 1) (tl (usb1 l)) ++ [loc_N2 l] /\
  lsb1 l = map (fun x => x + 1) (tl (lsb2 l)) ++ [1] /\
  startbin l = map (fun x => x - 1) (rev (lsb1 l) ++ usb1 l) /\
  stopbin l = map (fun x => x - 1) (rev (lsb2 l) ++ usb2 l) /\
  exists a L' U', lsb2 l = a :: L' /\ usb1 l = (a + 1) :: U'.

Definition C0 : C := (0, 0)%R.

(** Position [k] lies in bin [i]. *)
Definition in_bin (l : locals) (i : nat) (k : Z) : Prop :=
  (i < length (startbin l))%nat /\
  nth i (startbin l) 0 <= k <= nth i (stopbin l) 0.

(** The bins are non-empty, lie inside [0 .. N2 - 1], cover it, and no two
    of them share a position. *)
Definition partition_of_half (l : locals) : Prop :=
  (forall i, (i < length (startbin l))%nat ->
             nth i (startbin l) 0 <= nth i (stopbin l) 0) /\
  (forall i k, in_bin l i k -> 0 <= k <= loc_N2 l - 1) /\
  (forall k, 0 <= k <= loc_N2 l - 1 -> exists i, in_bin l i k) /\
  (forall i j k, in_bin l i k -> in_bin l j k -> i = j).

(** [c * z] for a real [c], and the sum of a list of integers. *)
Definition Crmul (c : R) (z : C) : C := (c * fst z, c * snd z)%R.

Definition Zsum (l : list Z) : Z := fold_right Z.add 0 l.

(** * Proofs *)

(** ** Rounding and the growth of the step *)

Lemma Qlt_bool_iff (a b : Q) : Qlt_bool a b = true <-> (a < b)%Q.
Proof.
  unfold Qlt_bool. rewrite negb_true_iff.
  split; intro H.
  - apply Qnot_le_lt. intro L. apply Qle_bool_iff in L. congruence.
  - destruct (Qle_bool b a) eqn:E; [|reflexivity].
    apply Qle_bool_iff in E. exfalso. exact (Qlt_not_le _ _ H E).
Qed.

Lemma usb_cond (N n m : Z) :
  Qlt_bool (inject_Z m + inject_Z n / 2) (inject_Z N / 2) = (2 * m + n <? N).
Proof.
  apply eq_true_iff_eq. rewrite Qlt_bool_iff, Z.ltb_lt.
  unfold Qlt, Qplus, Qdiv, Qmult, Qinv, inject_Z. cbn [Qnum Qden]. lia.
Qed.

Lemma lsb_cond (n m : Z) :
  Qlt_bool 1 (inject_Z m - inject_Z n / 2) = (2 <? 2 * m - n).
Proof.
  apply eq_true_iff_eq. rewrite Qlt_bool_iff, Z.ltb_lt.
  unfold Qlt, Qminus, Qplus, Qopp, Qdiv, Qmult, Qinv, inject_Z.
  cbn [Qnum Qden]. lia.
Qed.

Lemma mround_nearest (x : Q) :
  (inject_Z (mround x) - (1 # 2) <= x <= inject_Z (mround x) + (1 # 2))%Q.
Proof.
  unfold mround. destruct (Qle_bool 0 x).
  - pose proof (Qfloor_le (x + (1 # 2))) as H1.
    pose proof (Qlt_floor (x + (1 # 2))) as H2.
    rewrite inject_Z_plus in H2. change (inject_Z 1) with 1%Q in H2.
    split; Lqa.lra.
  - pose proof (Qle_ceiling (x - (1 # 2))) as H1.
    pose proof (Qceiling_lt (x - (1 # 2))) as H2.
    unfold Z.sub in H2. rewrite inject_Z_plus in H2.
    change (inject_Z (- (1))) with (-1 # 1)%Q in H2.
    split; Lqa.lra.
Qed.

Lemma mround_inject_Z (z : Z) : mround (inject_Z z) = z.
Proof.
  pose proof (mround_nearest (inject_Z z)) as [H1 H2].
  set (g := mround (inject_Z z)) in *.
  unfold Qle, Qminus, Qplus, Qopp, inject_Z in H1, H2.
  cbn [Qnum Qden] in H1, H2. lia.
Qed.

(** From step 8 on the step never shrinks and never exceeds 1024. *)
Lemma grow_bounds (n : Z) : 8 <= n <= 1024 -> n <= grow n <= 1024.
Proof.
  intros Hn. unfold grow.
  set (a := (inject_Z n * (11 # 10))%Q).
  set (b := inject_Z (2 ^ 10)).
  pose proof (mround_nearest (Qmin a b)) as [H1 H2].
  set (g := mround (Qmin a b)) in *.
  destruct (Q.min_spec a b) as [[Hab He] | [Hab He]];
    rewrite He in H1, H2; subst a b;
    unfold Qle, Qlt, Qminus, Qplus, Qopp, Qmult, inject_Z in *;
    cbn [Qnum Qden] in *; change (2 ^ 10) with 1024 in *; lia.
Qed.

(** ** Lists of positions and their differences *)

Lemma diffs_cons (a : Z) (l : list Z) :
  l <> [] -> diffs (a :: l) = (hd 0 l - a) :: diffs l.
Proof. destruct l; [congruence | reflexivity]. Qed.

Lemma diffs_snoc (l : list Z) (a : Z) :
  l <> [] -> diffs (l ++ [a]) = diffs l ++ [a - last l 0].
Proof.
  induction l as [|x l IH]; [congruence|]. intros _.
  destruct l as [|y l]; [reflexivity|].
  change (diffs ((x :: y :: l) ++ [a])) with ((y - x) :: diffs ((y :: l) ++ [a])).
  rewrite IH by discriminate. reflexivity.
Qed.

(** Two lists glued at a shared position. *)
Lemma diffs_glue (p q : list Z) (a : Z) :
  diffs (p ++ a :: q) = diffs (p ++ [a]) ++ diffs (a :: q).
Proof.
  induction p as [|x p IH]; [reflexivity|].
  destruct p as [|y p]; [destruct q; reflexivity|].
  change (diffs ((x :: y :: p) ++ a :: q)) with ((y - x) :: diffs ((y :: p) ++ a :: q)).
  rewrite IH. reflexivity.
Qed.

Lemma diffs_shift (c : Z) (l : list Z) :
  diffs (map (fun x => x + c) l) = diffs l.
Proof.
  induction l as [|x l IH]; [reflexivity|].
  destruct l as [|y l]; [reflexivity|].
  change (diffs (map (fun x => x + c) (x :: y :: l)))
    with ((y + c - (x + c)) :: diffs (map (fun x => x + c) (y :: l))).
  rewrite IH. change (diffs (x :: y :: l)) with ((y - x) :: diffs (y :: l)).
  f_equal. lia.
Qed.

Lemma diffs_pred (l : list Z) : diffs (map (fun x => x - 1) l) = diffs l.
Proof. apply (diffs_shift (-1)). Qed.

Lemma diffs_opp (l : list Z) : diffs (map Z.opp l) = map Z.opp (diffs l).
Proof.
  induction l as [|x l IH]; [reflexivity|].
  destruct l as [|y l]; [reflexivity|].
  change (diffs (map Z.opp (x :: y :: l)))
    with ((- y - - x) :: diffs (map Z.opp (y :: l))).
  rewrite IH. change (diffs (x :: y :: l)) with ((y - x) :: diffs (y :: l)).
  cbn [map]. f_equal. lia.
Qed.

Lemma diffs_rev (l : list Z) : diffs (rev l) = rev (map Z.opp (diffs l)).
Proof.
  induction l as [|x l IH]; [reflexivity|].
  destruct l as [|y l]; [reflexivity|].
  change (rev (x :: y :: l)) with (rev (y :: l) ++ [x]).
  rewrite diffs_snoc.
  2:{ cbn [rev]. intro E. apply app_eq_nil in E. destruct E; discriminate. }
  rewrite IH.
  change (diffs (x :: y :: l)) with ((y - x) :: diffs (y :: l)).
  cbn [map rev]. f_equal. f_equal.
  cbn [rev]. rewrite last_last. lia.
Qed.

Lemma diffs_length (l : list Z) : length (diffs l) = (length l - 1)%nat.
Proof.
  induction l as [|x l IH]; [reflexivity|].
  destruct l as [|y l]; [reflexivity|].
  change (diffs (x :: y :: l)) with ((y - x) :: diffs (y :: l)).
  cbn [length] in *. lia.
Qed.

Lemma diffs_nth (l : list Z) (i : nat) :
  (S i < length l)%nat -> nth i (diffs l) 0 = nth (S i) l 0 - nth i l 0.
Proof.
  revert i. induction l as [|x l IH]; intros i Hi; [cbn in Hi; lia|].
  destruct l as [|y l]; [cbn in Hi; lia|].
  change (diffs (x :: y :: l)) with ((y - x) :: diffs (y :: l)).
  destruct i as [|i]; [reflexivity|].
  cbn [nth]. rewrite IH by (cbn [length] in *; lia). reflexivity.
Qed.

(** The widths of the bins cut out by a list of boundaries. *)
Lemma widths_of_boundaries (b : list Z) :
  map (fun ab => snd ab - fst ab + 1)
      (combine (removelast b) (map (fun x => x - 1) (tl b))) = diffs b.
Proof.
  induction b as [|x b IH]; [reflexivity|].
  destruct b as [|y b]; [reflexivity|].
  change (removelast (x :: y :: b)) with (x :: removelast (y :: b)).
  cbn [tl map combine fst snd] in *.
  rewrite IH. change (diffs (x :: y :: b)) with ((y - x) :: diffs (y :: b)).
  f_equal. lia.
Qed.

Lemma nth_removelast (b : list Z) (i : nat) :
  (S i < length b)%nat -> nth i (removelast b) 0 = nth i b 0.
Proof.
  revert i. induction b as [|x b IH]; intros i Hi; [cbn in Hi; lia|].
  destruct b as [|y b]; [cbn in Hi; lia|].
  change (removelast (x :: y :: b)) with (x :: removelast (y :: b)).
  destruct i as [|i]; [reflexivity|].
  cbn [nth]. apply IH. cbn [length] in *. lia.
Qed.

Lemma nth_pred_tl (b : list Z) (i : nat) :
  (S i < length b)%nat ->
  nth i (map (fun x => x - 1) (tl b)) 0 = nth (S i) b 0 - 1.
Proof.
  intros Hi. destruct b as [|x b]; [cbn in Hi; lia|].
  cbn [tl nth].
  change 0 with ((fun x => x - 1) 1) at 1. rewrite map_nth.
  rewrite (nth_indep b 1 0) by (cbn [length] in Hi; lia). reflexivity.
Qed.

Lemma increasing_nth (l : list Z) (i j : nat) :
  increasing l -> (i < j < length l)%nat -> nth i l 0 < nth j l 0.
Proof.
  intros H [Hij Hj]. unfold increasing in H. rewrite Forall_forall in H.
  induction j as [|j IH]; [lia|].
  assert (Hs : nth j l 0 < nth (S j) l 0).
  { assert (Hd := diffs_nth l j Hj).
    assert (Hin : In (nth j (diffs l) 0) (diffs l)).
    { apply nth_In. rewrite diffs_length. lia. }
    apply H in Hin. lia. }
  destruct (Nat.eq_dec i j) as [->|Hne]; [exact Hs|].
  assert (nth i l 0 < nth j l 0) by (apply IH; lia). lia.
Qed.

(** ** The ranges laid down before the loops *)

Lemma map_seq_stride (k : nat) (a : Z) :
  map (fun i => a + Z.of_nat i * 8) (seq 0 (S k)) = stride k a.
Proof.
  revert a. induction k as [|k IH]; intros a.
  - cbn. f_equal. lia.
  - change (seq 0 (S (S k))) with (0%nat :: seq 1 (S k)).
    rewrite <- seq_shift, map_cons, map_map.
    cbn [stride]. f_equal; [cbn; lia|].
    rewrite <- IH. apply map_ext. intros i. lia.
Qed.

Lemma arange_stride (a k : Z) :
  0 <= k -> arange a (a + 8 * k + 1) 8 = stride (Z.to_nat k) a.
Proof.
  intros Hk. unfold arange. cbn [Z.ltb Z.compare].
  replace ((a + 8 * k + 1 - a + 8 - 1) / 8) with (k + 1)
    by (Z.div_mod_to_equations; lia).
  replace (Z.to_nat (k + 1)) with (S (Z.to_nat k)) by lia.
  apply map_seq_stride.
Qed.

Lemma arange_tone (tbin bind : Z) :
  0 <= bind <= 7 ->
  arange (tbin + 3) (tbin + bind + 1) 8 = if 3 <=? bind then [tbin + 3] else [].
Proof.
  intros Hb. unfold arange. cbn [Z.ltb Z.compare].
  destruct (Z.leb_spec 3 bind).
  - replace ((tbin + bind + 1 - (tbin + 3) + 8 - 1) / 8) with 1
      by (Z.div_mod_to_equations; lia).
    change (Z.to_nat 1) with 1%nat. cbn [seq map]. f_equal; lia.
  - replace ((tbin + bind + 1 - (tbin + 3) + 8 - 1) / 8) with 0
      by (Z.div_mod_to_equations; lia).
    reflexivity.
Qed.

Lemma arange_lower (bin1 bind : Z) :
  0 <= bind <= 7 ->
  arange bin1 (bin1 - 2 * bind + 1) (- 8) =
    if bind =? 0 then []
    else bin1 :: (if 5 <=? bind then [bin1 - 8] else []).
Proof.
  intros Hb. unfold arange. cbn [Z.ltb Z.compare Z.opp].
  destruct (Z.eqb_spec bind 0); [|destruct (Z.leb_spec 5 bind)].
  - replace ((bin1 - (bin1 - 2 * bind + 1) - -8 - 1) / 8) with 0
      by (Z.div_mod_to_equations; lia).
    reflexivity.
  - replace ((bin1 - (bin1 - 2 * bind + 1) - -8 - 1) / 8) with 2
      by (Z.div_mod_to_equations; lia).
    change (Z.to_nat 2) with 2%nat. cbn [seq map]. f_equal; lia.
  - replace ((bin1 - (bin1 - 2 * bind + 1) - -8 - 1) / 8) with 1
      by (Z.div_mod_to_equations; lia).
    change (Z.to_nat 1) with 1%nat. cbn [seq map]. f_equal; lia.
Qed.

Lemma stride_last (k : nat) (a : Z) : last (stride k a) 0 = a + 8 * Z.of_nat k.
Proof.
  revert a. induction k as [|k IH]; intros a; [cbn; lia|].
  change (stride (S k) a) with (a :: stride k (a + 8)).
  assert (Hne : stride k (a + 8) <> []) by (destruct k; discriminate).
  destruct (stride k (a + 8)) eqn:E; [congruence|].
  change (last (a :: z :: l) 0) with (last (z :: l) 0).
  rewrite <- E, IH. lia.
Qed.

Lemma stride_diffs (k : nat) (a : Z) : diffs (stride k a) = repeat 8 k.
Proof.
  revert a. induction k as [|k IH]; intros a; [reflexivity|].
  change (stride (S k) a) with (a :: stride k (a + 8)).
  rewrite diffs_cons by (destruct k; discriminate).
  rewrite IH. cbn [repeat]. f_equal. destruct k; cbn; lia.
Qed.

Lemma stride_hd (k : nat) (a : Z) : exists t, stride k a = a :: t.
Proof. destruct k; eexists; reflexivity. Qed.

Lemma last_elt_snoc (l : list Z) (a : Z) : last_elt (l ++ [a]) = Returns a.
Proof. unfold last_elt. rewrite rev_app_distr. reflexivity. Qed.

Lemma last_elt_last (l : list Z) :
  l <> [] -> last_elt l = Returns (last l 0).
Proof.
  intros H. destruct (exists_last H) as [p [a ->]].
  rewrite last_elt_snoc, last_last. reflexivity.
Qed.

(** ** The two loops *)

Lemma usb_while_grown (N : Z) (fuel : nat) :
  forall acc n m r,
    usb_while fuel N acc n m = Some r ->
    exists ext, r = acc ++ ext /\ grown N n m ext.
Proof.
  induction fuel as [|fuel IH]; intros acc n m r; cbn [usb_while];
    rewrite usb_cond; destruct (Z.ltb_spec (2 * m + n) N) as [Hc|Hc];
    intros H; try discriminate.
  - inversion H; subst. exists []. rewrite app_nil_r. split; [reflexivity|].
    now constructor.
  - apply IH in H. destruct H as [ext [-> G]].
    exists (m :: ext). rewrite <- app_assoc. split; [reflexivity|].
    now constructor.
  - inversion H; subst. exists []. rewrite app_nil_r. split; [reflexivity|].
    now constructor.
Qed.

Lemma lsb_while_grown (fuel : nat) :
  forall acc n m r,
    lsb_while fuel acc n m = Some r ->
    exists ext, r = acc ++ map Z.opp ext /\ grown (- 2) n (- m) ext.
Proof.
  induction fuel as [|fuel IH]; intros acc n m r; cbn [lsb_while];
    rewrite lsb_cond; destruct (Z.ltb_spec 2 (2 * m - n)) as [Hc|Hc];
    intros H; try discriminate.
  - inversion H; subst. exists []. rewrite app_nil_r. split; [reflexivity|].
    constructor. lia.
  - apply IH in H. destruct H as [ext [-> G]].
    exists (- m :: ext). rewrite <- app_assoc. cbn [map app].
    rewrite Z.opp_involutive. split; [reflexivity|].
    constructor; [lia|].
    replace (- m + grow n) with (- (m - grow n)) by lia. exact G.
  - inversion H; subst. exists []. rewrite app_nil_r. split; [reflexivity|].
    constructor. lia.
Qed.

Lemma usb_while_enough (N : Z) (fuel : nat) :
  forall acc n m,
    8 <= n <= 1024 ->
    N - 2 * m - n <= Z.of_nat fuel ->
    exists r, usb_while fuel N acc n m = Some r.
Proof.
  induction fuel as [|fuel IH]; intros acc n m Hn Hf; cbn [usb_while];
    rewrite usb_cond; destruct (Z.ltb_spec (2 * m + n) N) as [Hc|Hc];
    try (eexists; reflexivity); [lia|].
  pose proof (grow_bounds n Hn).
  apply IH; lia.
Qed.

Lemma lsb_while_enough (fuel : nat) :
  forall acc n m,
    8 <= n <= 1024 ->
    2 * m - n - 2 <= Z.of_nat fuel ->
    exists r, lsb_while fuel acc n m = Some r.
Proof.
  induction fuel as [|fuel IH]; intros acc n m Hn Hf; cbn [lsb_while];
    rewrite lsb_cond; destruct (Z.ltb_spec 2 (2 * m - n)) as [Hc|Hc];
    try (eexists; reflexivity); [lia|].
  pose proof (grow_bounds n Hn).
  apply IH; lia.
Qed.

(** More fuel does not change what a loop that finished has computed. *)
Lemma usb_while_more (N : Z) (fuel : nat) :
  forall acc n m r,
    usb_while fuel N acc n m = Some r ->
    forall fuel', (fuel <= fuel')%nat -> usb_while fuel' N acc n m = Some r.
Proof.
  induction fuel as [|fuel IH]; intros acc n m r H fuel' Hle.
  - cbn [usb_while] in H.
    destruct fuel'; cbn [usb_while];
      destruct (Qlt_bool _ _); congruence.
  - destruct fuel' as [|fuel']; [lia|].
    cbn [usb_while] in *. destruct (Qlt_bool _ _); [|exact H].
    apply IH with (fuel' := fuel') in H; [exact H | lia].
Qed.

Lemma lsb_while_more (fuel : nat) :
  forall acc n m r,
    lsb_while fuel acc n m = Some r ->
    forall fuel', (fuel <= fuel')%nat -> lsb_while fuel' acc n m = Some r.
Proof.
  induction fuel as [|fuel IH]; intros acc n m r H fuel' Hle.
  - cbn [lsb_while] in H.
    destruct fuel'; cbn [lsb_while];
      destruct (Qlt_bool _ _); congruence.
  - destruct fuel' as [|fuel']; [lia|].
    cbn [lsb_while] in *. destruct (Qlt_bool _ _); [|exact H].
    apply IH with (fuel' := fuel') in H; [exact H | lia].
Qed.

(** ** One run of the bin edge computation *)

Lemma usb1_init_nonempty (tbin bin0 : Z) : usb1_init tbin bin0 <> [].
Proof.
  unfold usb1_init.
  destruct (stride_hd (Z.to_nat ((tbin - bin0) / 8)) ((tbin - bin0) mod 8 + bin0))
    as [t ->].
  discriminate.
Qed.

Lemma usb1_init_hd (tbin bin0 : Z) :
  exists t, usb1_init tbin bin0 = ((tbin - bin0) mod 8 + bin0) :: t.
Proof.
  unfold usb1_init.
  destruct (stride_hd (Z.to_nat ((tbin - bin0) / 8)) ((tbin - bin0) mod 8 + bin0))
    as [t ->].
  eexists. reflexivity.
Qed.

Lemma bin_edges_run (N tbin : Z) (f0 : Q) :
  let bin0 := mround (f0 * inject_Z N) in
  let bind := (tbin - bin0) mod 8 in
  (tbin <= bin0 /\ bin_edges N tbin f0 = Raises AssertionError) \/
  (bin0 < tbin /\ bind = 0 /\ bin_edges N tbin f0 = Raises IndexError) \/
  (bin0 < tbin /\ 1 <= bind <= 7 /\
   exists extU extL,
     grown N 8 (last (usb1_init tbin bin0) 0 + 8) extU /\
     grown (- 2) 8 (- (last (lsb2_init tbin bin0) 0 - 8)) extL /\
     bin_edges N tbin f0 =
       Returns (assemble N tbin bin0
                         (usb1_init tbin bin0 ++ extU)
                         (lsb2_init tbin bin0 ++ map Z.opp extL))).
Proof.
  intros bin0 bind. unfold bin_edges. cbv zeta. fold bin0.
  destruct (Z.ltb_spec bin0 tbin) as [Hlt|Hge]; [right | left; split; [lia | reflexivity]].
  cbn [py_assert obind].
  replace ((tbin - bin0) mod 8 + bin0 - bin0) with bind by (subst bind; lia).
  fold bind.
  assert (Hb : 0 <= bind < 8) by (apply Z.mod_pos_bound; lia).
  assert (Hd := Z.div_mod (tbin - bin0) 8 ltac:(lia)). fold bind in Hd.
  assert (Hk : 0 <= (tbin - bin0) / 8) by (apply Z.div_pos; lia).
  assert (EU : arange (bind + bin0) (tbin + 1) 8
               ++ arange (tbin + 3) (tbin + bind + 1) 8 = usb1_init tbin bin0).
  { unfold usb1_init. fold bind. rewrite <- arange_stride by exact Hk.
    rewrite arange_tone by lia. do 2 f_equal. lia. }
  rewrite EU.
  rewrite (last_elt_last _ (usb1_init_nonempty tbin bin0)). cbn [obind].
  set (u := last (usb1_init tbin bin0) 0).
  destruct (usb_while_enough N (usb_fuel N (u + 8)) (usb1_init tbin bin0) 8 (u + 8))
    as [U HU]; [lia | unfold usb_fuel; lia |].
  rewrite HU. cbn [of_fuel obind].
  apply usb_while_grown in HU. destruct HU as [extU [-> GU]].
  rewrite arange_lower by lia.
  destruct (Z.eqb_spec bind 0) as [H0|H0].
  { left. repeat split; [lia | exact H0]. }
  right. split; [exact Hlt|]. split; [lia|].
  assert (EL : map (fun x => x - 1)
                   ((bind + bin0) :: (if 5 <=? bind then [bind + bin0 - 8] else []))
               = lsb2_init tbin bin0).
  { unfold lsb2_init. fold bind.
    destruct (5 <=? bind); cbn [map]; [|reflexivity].
    replace (bind + bin0 - 8 - 1) with (bind + bin0 - 9) by lia. reflexivity. }
  rewrite EL.
  assert (HneL : lsb2_init tbin bin0 <> []) by (unfold lsb2_init; discriminate).
  rewrite (last_elt_last _ HneL). cbn [obind].
  set (w := last (lsb2_init tbin bin0) 0).
  destruct (lsb_while_enough (lsb_fuel (w - 8)) (lsb2_init tbin bin0) 8 (w - 8))
    as [L HL]; [lia | unfold lsb_fuel; lia |].
  rewrite HL. cbn [of_fuel obind].
  apply lsb_while_grown in HL. destruct HL as [extL [-> GL]].
  exists extU, extL. split; [exact GU|]. split; [exact GL|]. reflexivity.
Qed.

(** ** What the loops append *)

Lemma last_app_cons (p q : list Z) (a : Z) :
  last (p ++ a :: q) 0 = last (a :: q) 0.
Proof.
  induction p as [|x p IH]; [reflexivity|].
  cbn [app]. destruct (p ++ a :: q) eqn:E.
  - destruct p; discriminate.
  - rewrite <- E in *. cbn [last]. rewrite E. rewrite <- E. exact IH.
Qed.

Lemma grown_diffs (N n m : Z) (ext : list Z) :
  grown N n m ext -> diffs ((m - n) :: ext) = steps (length ext) n.
Proof.
  induction 1 as [n m Hc | n m ext Hc G IH]; [reflexivity|].
  change (diffs ((m - n) :: m :: ext)) with ((m - (m - n)) :: diffs (m :: ext)).
  cbn [length steps]. f_equal; [lia|].
  rewrite <- IH. do 2 f_equal. lia.
Qed.

Lemma steps_bounds (k : nat) (n : Z) :
  8 <= n <= 1024 -> Forall (fun w => n <= w <= 1024) (steps k n).
Proof.
  revert n. induction k as [|k IH]; intros n Hn; [constructor|].
  cbn [steps]. pose proof (grow_bounds n Hn) as Hg.
  constructor; [lia|].
  eapply Forall_impl; [|apply IH; lia]. cbn. intros; lia.
Qed.

Lemma steps_nondecreasing (k : nat) (n : Z) :
  8 <= n <= 1024 -> nondecreasing (steps k n).
Proof.
  unfold nondecreasing. revert n. induction k as [|k IH]; intros n Hn; [constructor|].
  pose proof (grow_bounds n Hn) as Hg.
  destruct k as [|k]; [constructor|].
  change (steps (S (S k)) n) with (n :: steps (S k) (grow n)).
  change (diffs (n :: steps (S k) (grow n)))
    with ((grow n - n) :: diffs (steps (S k) (grow n))).
  constructor; [lia|]. apply IH. lia.
Qed.

Lemma grown_last_bound (N n m : Z) (ext : list Z) :
  grown N n m ext -> 8 <= n <= 1024 -> ext <> [] -> 2 * last ext 0 + 8 < N.
Proof.
  induction 1 as [n m Hc | n m ext Hc G IH]; intros Hn Hne; [congruence|].
  pose proof (grow_bounds n Hn) as Hg.
  destruct ext as [|x ext]; [cbn [last]; lia|].
  change (last (m :: x :: ext) 0) with (last (x :: ext) 0).
  apply IH; [lia | discriminate].
Qed.

Lemma grown_exit (N n m : Z) (ext : list Z) :
  grown N n m ext -> 8 <= n <= 1024 ->
  N <= 2 * last ((m - n) :: ext) 0 + 3072.
Proof.
  induction 1 as [n m Hc | n m ext Hc G IH]; intros Hn; [cbn [last]; lia|].
  pose proof (grow_bounds n Hn) as Hg.
  change (last ((m - n) :: m :: ext) 0) with (last (m :: ext) 0).
  replace m with (m + grow n - grow n) at 1 by lia.
  apply IH. lia.
Qed.

(** A list of edges followed by what a loop started behind its last edge
    appends. *)
Lemma grown_app (N u : Z) (init ext : list Z) :
  init <> [] -> last init 0 = u -> grown N 8 (u + 8) ext ->
  diffs (init ++ ext) = diffs init ++ steps (length ext) 8 /\
  (ext <> [] -> 2 * last (init ++ ext) 0 + 8 < N) /\
  (ext = [] -> last (init ++ ext) 0 = u) /\
  N <= 2 * last (init ++ ext) 0 + 3072.
Proof.
  intros Hne Hu G.
  destruct (exists_last Hne) as [p [a E]]. subst init.
  rewrite last_last in Hu. subst a.
  assert (D := grown_diffs _ _ _ _ G).
  replace (u + 8 - 8) with u in D by lia.
  repeat split.
  - rewrite <- app_assoc. cbn [app]. rewrite diffs_glue, D. reflexivity.
  - intros Hx. rewrite <- app_assoc. cbn [app]. rewrite last_app_cons.
    destruct ext as [|x ext]; [congruence|].
    change (last (u :: x :: ext) 0) with (last (x :: ext) 0).
    apply (grown_last_bound _ _ _ _ G); [lia | discriminate].
  - intros ->. rewrite app_nil_r, last_last. reflexivity.
  - rewrite <- app_assoc. cbn [app]. rewrite last_app_cons.
    pose proof (grown_exit _ _ _ _ G ltac:(lia)) as X.
    replace (u + 8 - 8) with u in X by lia. exact X.
Qed.

Lemma usb1_init_last (tbin bin0 : Z) :
  bin0 < tbin ->
  last (usb1_init tbin bin0) 0 =
    tbin + (if 3 <=? (tbin - bin0) mod 8 then 3 else 0).
Proof.
  intros Hlt. unfold usb1_init.
  assert (Hd := Z.div_mod (tbin - bin0) 8 ltac:(lia)).
  assert (Hk : 0 <= (tbin - bin0) / 8) by (apply Z.div_pos; lia).
  destruct (3 <=? (tbin - bin0) mod 8).
  - rewrite last_last. lia.
  - rewrite app_nil_r, stride_last. lia.
Qed.

Lemma usb1_init_diffs (tbin bin0 : Z) :
  bin0 < tbin ->
  diffs (usb1_init tbin bin0) =
    repeat 8 (Z.to_nat ((tbin - bin0) / 8))
      ++ (if 3 <=? (tbin - bin0) mod 8 then [3] else []).
Proof.
  intros Hlt. unfold usb1_init.
  destruct (3 <=? (tbin - bin0) mod 8) eqn:E3.
  - rewrite diffs_snoc by (destruct (stride_hd (Z.to_nat ((tbin - bin0) / 8))
        ((tbin - bin0) mod 8 + bin0)) as [t ->]; discriminate).
    rewrite stride_diffs, stride_last. do 2 f_equal.
    assert (Hd := Z.div_mod (tbin - bin0) 8 ltac:(lia)).
    apply Z.leb_le in E3.
    assert (0 <= (tbin - bin0) / 8) by (Z.div_mod_to_equations; lia).
    lia.
  - rewrite !app_nil_r. apply stride_diffs.
Qed.

Lemma lsb2_init_last (tbin bin0 : Z) :
  last (lsb2_init tbin bin0) 0 =
    (tbin - bin0) mod 8 + bin0 - (if 5 <=? (tbin - bin0) mod 8 then 9 else 1).
Proof. unfold lsb2_init. destruct (5 <=? (tbin - bin0) mod 8); reflexivity. Qed.

Lemma lsb2_init_diffs (tbin bin0 : Z) :
  diffs (map Z.opp (lsb2_init tbin bin0)) =
    if 5 <=? (tbin - bin0) mod 8 then [8] else [].
Proof.
  unfold lsb2_init. destruct (5 <=? (tbin - bin0) mod 8); [|reflexivity].
  cbn [map diffs]. f_equal. lia.
Qed.

(** ** The boundaries behind [startbin] and [stopbin] *)

Lemma assembled_startbin (l : locals) :
  assembled l -> startbin l = removelast (boundaries l).
Proof.
  intros (_ & E1 & Es & _ & a & L' & U' & EL & EU).
  unfold boundaries. rewrite Es, E1, EL, EU. cbn [tl rev].
  rewrite rev_app_distr. cbn [rev app map].
  rewrite map_app, map_rev, map_map. cbn [map].
  rewrite (map_ext _ (fun x => x)) by (intros; lia). rewrite map_id.
  replace (a + 1 - 1) with a by lia.
  replace (0 :: (rev L' ++ [a]) ++ map (fun x => x - 1) U' ++ [loc_N2 l])
    with ((0 :: rev L' ++ a :: map (fun x => x - 1) U') ++ [loc_N2 l]).
  - rewrite removelast_last. reflexivity.
  - cbn [app]. rewrite <- !app_assoc. reflexivity.
Qed.

Lemma assembled_stopbin (l : locals) :
  assembled l -> stopbin l = map (fun x => x - 1) (tl (boundaries l)).
Proof.
  intros (E2 & _ & _ & Es & _). unfold boundaries. cbn [tl].
  rewrite Es, E2. reflexivity.
Qed.

Lemma assembled_widths (l : locals) :
  assembled l -> widths l = diffs (boundaries l).
Proof.
  intros H. unfold widths.
  rewrite (assembled_startbin l H), (assembled_stopbin l H).
  apply widths_of_boundaries.
Qed.

Lemma boundaries_length (l : locals) :
  assembled l ->
  length (boundaries l) = S (length (lsb2 l) + length (usb1 l)).
Proof.
  intros (_ & _ & _ & _ & a & L' & U' & EL & EU).
  unfold boundaries. rewrite EL, EU. cbn [tl length].
  rewrite !length_app, length_rev, length_map. cbn [length]. lia.
Qed.

Lemma removelast_length (l : list Z) :
  length (removelast l) = (length l - 1)%nat.
Proof.
  induction l as [|x l IH]; [reflexivity|].
  destruct l as [|y l]; [reflexivity|].
  change (removelast (x :: y :: l)) with (x :: removelast (y :: l)).
  cbn [length] in *. lia.
Qed.

Lemma assembled_lengths (l : locals) :
  assembled l ->
  length (startbin l) = (length (lsb2 l) + length (usb1 l))%nat /\
  length (stopbin l) = (length (lsb2 l) + length (usb1 l))%nat.
Proof.
  intros H. pose proof (boundaries_length l H) as Hb.
  rewrite (assembled_startbin l H), (assembled_stopbin l H).
  rewrite removelast_length, length_map.
  destruct (boundaries l); cbn [tl length] in *; lia.
Qed.

Lemma nth_startbin (l : locals) (i : nat) :
  assembled l -> (i < length (startbin l))%nat ->
  nth i (startbin l) 0 = nth i (boundaries l) 0.
Proof.
  intros H Hi. destruct (assembled_lengths l H) as [Hs _].
  rewrite (assembled_startbin l H).
  apply nth_removelast. rewrite (boundaries_length l H). lia.
Qed.

Lemma nth_stopbin (l : locals) (i : nat) :
  assembled l -> (i < length (startbin l))%nat ->
  nth i (stopbin l) 0 = nth (S i) (boundaries l) 0 - 1.
Proof.
  intros H Hi. destruct (assembled_lengths l H) as [Hs _].
  rewrite (assembled_stopbin l H).
  apply nth_pred_tl. rewrite (boundaries_length l H). lia.
Qed.

Lemma last_map_nonempty (f : Z -> Z) (l : list Z) :
  l <> [] -> last (map f l) 0 = f (last l 0).
Proof.
  intros H. destruct (exists_last H) as [q [y ->]].
  rewrite map_app. cbn [map]. rewrite !last_last. reflexivity.
Qed.

(** The widths, sideband by sideband. *)
Lemma boundaries_diffs (l : locals) :
  assembled l ->
  diffs (boundaries l) =
    (last (lsb2 l) 0 :: rev (map Z.opp (diffs (lsb2 l))))
      ++ (diffs (usb1 l) ++ [loc_N2 l - last (usb1 l) 0 + 1]).
Proof.
  intros (_ & _ & _ & _ & a & L' & U' & EL & EU).
  unfold boundaries. rewrite EL, EU. cbn [tl].
  change (rev (a :: L')) with (rev L' ++ [a]).
  rewrite <- app_assoc. cbn [app].
  rewrite app_comm_cons, diffs_glue.
  rewrite <- app_comm_cons.
  change (rev L' ++ [a]) with (rev (a :: L')).
  rewrite diffs_cons by (cbn [rev]; intro E; apply app_eq_nil in E; destruct E; discriminate).
  rewrite diffs_rev.
  replace (hd 0 (rev (a :: L'))) with (last (a :: L') 0).
  2:{ destruct (@exists_last _ (a :: L') ltac:(discriminate)) as [q [y E]].
      rewrite E, last_last, rev_app_distr. reflexivity. }
  rewrite Z.sub_0_r. cbn [app]. f_equal. f_equal.
  replace (a :: map (fun x => x - 1) U' ++ [loc_N2 l])
    with (map (fun x => x - 1) ((a + 1) :: U') ++ [loc_N2 l])
    by (cbn [map app]; f_equal; lia).
  rewrite diffs_snoc by discriminate.
  rewrite diffs_pred. f_equal. f_equal.
  rewrite last_map_nonempty by discriminate. lia.
Qed.


(** ** Anatomy of a run that returns *)

Lemma returns_anatomy (N tbin : Z) (f0 : Q) (l : locals) :
  bin_edges N tbin f0 = Returns l ->
  let bin0 := mround (f0 * inject_Z N) in
  let bind := (tbin - bin0) mod 8 in
  bin0 < tbin /\ 1 <= bind <= 7 /\
  loc_N l = N /\ loc_N2 l = N / 2 /\ loc_bin0 l = bin0 /\
  loc_bin1 l = bind + bin0 /\ loc_bind l = bind /\
  assembled l /\
  (exists ku,
      diffs (usb1 l) =
        repeat 8 (Z.to_nat ((tbin - bin0) / 8))
          ++ (if 3 <=? bind then [3] else []) ++ steps ku 8) /\
  (exists kl,
      map Z.opp (diffs (lsb2 l)) =
        (if 5 <=? bind then [8] else []) ++ steps kl 8) /\
  loc_N2 l - last (usb1 l) 0 + 1 <= 1537 /\
  last (lsb2 l) 0 <= 1537 /\
  (well_placed N tbin f0 ->
   1 <= last (lsb2 l) 0 /\ last (usb1 l) 0 <= N / 2).
Proof.
  intros H. cbv zeta.
  remember (mround (f0 * inject_Z N)) as bin0 eqn:Ebin0.
  set (bind := (tbin - bin0) mod 8).
  pose proof (bin_edges_run N tbin f0) as R. cbv zeta in R.
  rewrite <- Ebin0 in R. fold bind in R.
  destruct R
    as [[_ E] | [(_ & _ & E) | (Hlt & Hb & extU & extL & GU & GL & E)]];
    rewrite E in H; try discriminate.
  assert (El : l = assemble N tbin bin0 (usb1_init tbin bin0 ++ extU)
                          (lsb2_init tbin bin0 ++ map Z.opp extL))
    by congruence.
  subst l. clear E H.
  unfold assemble. fold bind.
  cbv beta iota delta [loc_N loc_N2 loc_bin0 loc_bin1 loc_bind usb1 lsb2].
  (* the upper edges *)
  destruct (grown_app N _ (usb1_init tbin bin0) extU
              (usb1_init_nonempty tbin bin0) eq_refl GU)
    as (DU & BU & EU & XU).
  (* the lower edges, negated *)
  assert (HneL : map Z.opp (lsb2_init tbin bin0) <> [])
    by (unfold lsb2_init; discriminate).
  assert (HlastL : last (map Z.opp (lsb2_init tbin bin0)) 0
                   = - last (lsb2_init tbin bin0) 0)
    by (apply last_map_nonempty; unfold lsb2_init; discriminate).
  replace (- (last (lsb2_init tbin bin0) 0 - 8))
    with (- last (lsb2_init tbin bin0) 0 + 8) in GL by lia.
  destruct (grown_app (- 2) _ (map Z.opp (lsb2_init tbin bin0)) extL
              HneL HlastL GL)
    as (DL & BL & EL & XL).
  assert (Hopp : map Z.opp (lsb2_init tbin bin0 ++ map Z.opp extL)
                 = map Z.opp (lsb2_init tbin bin0) ++ extL).
  { rewrite map_app, map_map. f_equal.
    rewrite (map_ext _ (fun x => x)) by (intros; lia). apply map_id. }
  assert (HlL : last (lsb2_init tbin bin0 ++ map Z.opp extL) 0
                = - last (map Z.opp (lsb2_init tbin bin0) ++ extL) 0).
  { rewrite <- Hopp. rewrite last_map_nonempty; [lia|].
    unfold lsb2_init. discriminate. }
  split; [exact Hlt|]. split; [exact Hb|].
  do 5 (split; [reflexivity|]).
  split.
  { unfold assembled.
    cbv beta iota delta [usb2 lsb1 startbin stopbin lsb2 usb1 loc_N2].
    do 4 (split; [reflexivity|]).
    destruct (usb1_init_hd tbin bin0) as [t ->].
    unfold lsb2_init. cbn [app].
    eexists (bind + bin0 - 1), _, _. split; [reflexivity|].
    f_equal. lia. }
  split.
  { exists (length extU). rewrite DU, usb1_init_diffs by exact Hlt.
    fold bind. rewrite <- app_assoc. reflexivity. }
  split.
  { exists (length extL). rewrite <- diffs_opp, Hopp, DL, lsb2_init_diffs.
    reflexivity. }
  split.
  { pose proof (Z.div_mod N 2 ltac:(lia)).
    pose proof (Z.mod_pos_bound N 2 ltac:(lia)). lia. }
  split.
  { rewrite HlL. lia. }
  intros WP. unfold well_placed in WP. cbv zeta in WP.
  rewrite <- Ebin0 in WP. fold bind in WP. destruct WP as [Hlo Hhi]. split.
  - rewrite HlL. destruct extL as [|x extL].
    + rewrite (EL eq_refl). rewrite lsb2_init_last. fold bind.
      destruct (5 <=? bind); lia.
    + assert (Hx : x :: extL <> []) by discriminate.
      specialize (BL Hx). lia.
  - destruct extU as [|x extU].
    + rewrite (EU eq_refl), usb1_init_last by exact Hlt. exact Hhi.
    + assert (Hx : x :: extU <> []) by discriminate.
      specialize (BU Hx).
      pose proof (Z.div_mod N 2 ltac:(lia)).
      pose proof (Z.mod_pos_bound N 2 ltac:(lia)). lia.
Qed.

(** ** From the array to the edges *)

Lemma shape0_length {A : Type} (X : list A) :
  length X <> 1%nat -> shape0 X = Returns (Z.of_nat (length X)).
Proof. destruct X as [|x [|y X]]; cbn; congruence. Qed.

Lemma shape0_repeat {A : Type} (x : A) (n : nat) :
  n <> 1%nat -> shape0 (repeat x n) = Returns (Z.of_nat n).
Proof.
  intros H. rewrite shape0_length; rewrite repeat_length; congruence.
Qed.

Lemma locals_inv (X : list C) (tbin : Z) (f0 : Q) (l : locals) :
  bplogsmooth_locals X tbin f0 = Returns l ->
  length X <> 1%nat /\ bin_edges (Z.of_nat (length X)) tbin f0 = Returns l.
Proof.
  unfold bplogsmooth_locals. destruct X as [|x [|y X]]; cbn [shape0 obind].
  - intros H. split; [discriminate | exact H].
  - discriminate.
  - intros H. split; [discriminate | exact H].
Qed.

Lemma bplogsmooth_inv (X : list C) (tbin : Z) (f0 : Q) (f : list Q) (p : list R) :
  bplogsmooth X tbin f0 = Returns (f, p) ->
  exists l,
    bplogsmooth_locals X tbin f0 = Returns l /\
    f = map (fun ab => centre (loc_N l) f0 (fst ab) (snd ab))
            (combine (startbin l) (stopbin l)) /\
    p = map (fun ab => dbp (bin_power X (fst ab) (snd ab)))
            (combine (startbin l) (stopbin l)).
Proof.
  unfold bplogsmooth. destruct (bplogsmooth_locals X tbin f0) as [l| |];
    cbn [obind]; try discriminate.
  intros H. exists l. split; [reflexivity|]. split; congruence.
Qed.

(** Every way a call can end. *)
Lemma bplogsmooth_outcome (X : list C) (tbin : Z) (f0 : Q) :
  let bin0 := mround (f0 * inject_Z (Z.of_nat (length X))) in
  (length X = 1%nat /\ bplogsmooth X tbin f0 = Raises IndexError) \/
  (length X <> 1%nat /\ tbin <= bin0 /\
   bplogsmooth X tbin f0 = Raises AssertionError) \/
  (length X <> 1%nat /\ bin0 < tbin /\ (tbin - bin0) mod 8 = 0 /\
   bplogsmooth X tbin f0 = Raises IndexError) \/
  (length X <> 1%nat /\ bin0 < tbin /\ (tbin - bin0) mod 8 <> 0 /\
   exists f p, bplogsmooth X tbin f0 = Returns (f, p)).
Proof.
  intros bin0. subst bin0. unfold bplogsmooth, bplogsmooth_locals.
  destruct (Nat.eq_dec (length X) 1) as [E1|E1].
  - left. split; [exact E1|].
    destruct X as [|x [|y X]]; try discriminate. reflexivity.
  - right. rewrite (shape0_length X E1). cbn [obind].
    destruct (bin_edges_run (Z.of_nat (length X)) tbin f0)
      as [[Hle E] | [(Hlt & Hb & E) | (Hlt & Hb & extU & extL & _ & _ & E)]];
      rewrite E; cbn [obind].
    + left. repeat split; assumption.
    + right. left. repeat split; assumption.
    + right. right. repeat split; try assumption; [lia|].
      eexists _, _. reflexivity.
Qed.

(** ** Termination *)

(** C8: both geometric-growth loops terminate on every input: from step 8
    on the step never shrinks and stays between 8 and 1024, every round of
    a loop shrinks the span that is left by at least 16 half samples, and the
    fuel [bin_edges] hands to the loops (the span at loop entry) is never
    used up, so that no call runs forever. *)
Theorem loops_terminate :
  (forall n, 8 <= n <= 1024 -> 8 <= grow n /\ n <= grow n /\ grow n <= 1024) /\
  (forall N n m, 8 <= n <= 1024 ->
     N - 2 * (m + grow n) - grow n <= (N - 2 * m - n) - 16 /\
     2 * (m - grow n) - grow n <= (2 * m - n) - 16) /\
  (forall N usb1 m, exists r, forall fuel,
     (usb_fuel N m <= fuel)%nat -> usb_while fuel N usb1 8 m = Some r) /\
  (forall lsb2 m, exists r, forall fuel,
     (lsb_fuel m <= fuel)%nat -> lsb_while fuel lsb2 8 m = Some r) /\
  (forall N tbin f0, bin_edges N tbin f0 <> Diverges) /\
  (forall X tbin f0, bplogsmooth X tbin f0 <> Diverges).
Proof.
  split; [|split; [|split; [|split; [|split]]]].
  - intros n Hn. pose proof (grow_bounds n Hn). lia.
  - intros N n m Hn. pose proof (grow_bounds n Hn). lia.
  - intros N usb1 m.
    destruct (usb_while_enough N (usb_fuel N m) usb1 8 m) as [r Hr];
      [lia | unfold usb_fuel; lia |].
    exists r. intros fuel Hf. exact (usb_while_more _ _ _ _ _ _ Hr _ Hf).
  - intros lsb2 m.
    destruct (lsb_while_enough (lsb_fuel m) lsb2 8 m) as [r Hr];
      [lia | unfold lsb_fuel; lia |].
    exists r. intros fuel Hf. exact (lsb_while_more _ _ _ _ _ Hr _ Hf).
  - intros N tbin f0.
    destruct (bin_edges_run N tbin f0)
      as [[_ E] | [(_ & _ & E) | (_ & _ & extU & extL & _ & _ & E)]];
      rewrite E; discriminate.
  - intros X tbin f0.
    destruct (bplogsmooth_outcome X tbin f0)
      as [[_ E] | [(_ & _ & E) | [(_ & _ & _ & E) | (_ & _ & _ & f & p & E)]]];
      rewrite E; discriminate.
Qed.

Lemma loops_terminate_witness :
  8 <= grow 8 /\
  (exists r, usb_while (usb_fuel 100 9) 100 [1] 8 9 = Some r) /\
  (exists r, lsb_while (lsb_fuel 24) [32] 8 24 = Some r).
Proof.
  destruct loops_terminate as (G & _ & U & L & _).
  split; [apply (G 8); lia|]. split.
  - destruct (U 100 [1] 9) as [r Hr]. exists r. apply Hr. lia.
  - destruct (L [32] 24) as [r Hr]. exists r. apply Hr. lia.
Defined.

(** ** The error behaviour *)

(** Runs the edge computation on an array of [n] samples. *)
Ltac run_locals :=
  unfold bplogsmooth_locals;
  rewrite shape0_repeat by discriminate;
  cbn [obind]; vm_compute; reflexivity.

(** C1: the precondition [tbin > round(f0*N)] is not the only way to fail.
    On the 4097-point spectrum of the repository's test, with [f0 = 1/8]
    (so that [round(f0*N) = 512]) and the tone at [tbin = 1048], the
    precondition holds, yet the call raises IndexError: [tbin - bin0 = 536]
    is a multiple of 8, [bind] is 0, line 62 builds an empty [lsb2] and
    line 63 reads [lsb2[-1]]. *)
Theorem tone_offset_multiple_of_8_raises :
  mround ((1 # 8) * inject_Z (Z.of_nat (length (repeat C0 4097)))) < 1048 /\
  bplogsmooth (repeat C0 4097) 1048 (1 # 8) = Raises IndexError.
Proof.
  split.
  - rewrite repeat_length. vm_compute. reflexivity.
  - unfold bplogsmooth, bplogsmooth_locals.
    rewrite shape0_repeat by discriminate. cbn [obind].
    replace (bin_edges (Z.of_nat 4097) 1048 (1 # 8)) with (@Raises locals IndexError)
      by (vm_compute; reflexivity).
    reflexivity.
Qed.

(** ** The length [N] *)

(** C2, as stated, fails: on the 4097-point spectrum of the repository's
    test the routine works with [N = 4097], not with twice that. *)
Lemma fft_length_is_not_doubled :
  exists l,
    bplogsmooth_locals (repeat C0 4097) 1045 (1 # 8) = Returns l /\
    loc_N l <> 2 * Z.of_nat (length (repeat C0 4097)).
Proof.
  eexists. split; [run_locals|].
  cbn [loc_N]. rewrite repeat_length. vm_compute. discriminate.
Qed.

(** C2, amended: the [N] used everywhere (for [bin0 = round(f0*N)], for
    [N2 = floor(N/2)] and for normalising the output frequencies) is the
    length of the input array [X] itself. *)
Theorem fft_length_is_array_length
  (X : list C) (tbin : Z) (f0 : Q) (l : locals) :
  bplogsmooth_locals X tbin f0 = Returns l ->
  let len := Z.of_nat (length X) in
  loc_N l = len /\
  loc_bin0 l = mround (f0 * inject_Z len) /\
  loc_N2 l = len / 2 /\
  forall f p,
    bplogsmooth X tbin f0 = Returns (f, p) ->
    f = map (fun ab => (inject_Z (fst ab + snd ab) / 2 / inject_Z len - f0)%Q)
            (combine (startbin l) (stopbin l)).
Proof.
  intros H len. destruct (locals_inv _ _ _ _ H) as [_ Hb].
  destruct (returns_anatomy _ _ _ _ Hb) as (_ & _ & EN & EN2 & Eb & _).
  fold len in EN, EN2, Eb.
  repeat split; try assumption.
  intros f p Hfp. apply bplogsmooth_inv in Hfp.
  destruct Hfp as (l' & Hl' & -> & _).
  assert (l' = l) by congruence. subst l'.
  rewrite EN. reflexivity.
Qed.

Lemma fft_length_is_array_length_witness :
  exists l,
    bplogsmooth_locals (repeat C0 40) 13 (1 # 4) = Returns l /\
    loc_N l = 40 /\ loc_bin0 l = 10 /\ loc_N2 l = 20.
Proof.
  assert (H : {l | bplogsmooth_locals (repeat C0 40) 13 (1 # 4) = Returns l})
    by (eexists; run_locals).
  destruct H as [l H]. exists l. split; [exact H|].
  destruct (fft_length_is_array_length _ _ _ _ H) as (E1 & E2 & E3 & _).
  rewrite repeat_length in E1, E2, E3.
  repeat split; [exact E1 | exact E2 | exact E3].
Defined.

(** ** Both ends of the bins *)




(** ** The widths of the bins *)

Lemma firstn_exact {A : Type} (p q : list A) : firstn (length p) (p ++ q) = p.
Proof.
  rewrite firstn_app, firstn_all, Nat.sub_diag. cbn [firstn].
  apply app_nil_r.
Qed.

Lemma skipn_exact {A : Type} (p q : list A) : skipn (length p) (p ++ q) = q.
Proof.
  rewrite skipn_app, skipn_all, Nat.sub_diag. reflexivity.
Qed.

Lemma returns_widths (N tbin : Z) (f0 : Q) (l : locals) :
  bin_edges N tbin f0 = Returns l ->
  let bind := (tbin - mround (f0 * inject_Z N)) mod 8 in
  exists kl ku,
    lower_widths l =
      ((if 5 <=? bind then [8] else []) ++ steps kl 8) ++ [last (lsb2 l) 0] /\
    upper_widths l =
      (repeat 8 (Z.to_nat ((tbin - mround (f0 * inject_Z N)) / 8))
         ++ (if 3 <=? bind then [3] else []) ++ steps ku 8)
        ++ [N / 2 - last (usb1 l) 0 + 1] /\
    widths l = rev (lower_widths l) ++ upper_widths l.
Proof.
  intros H bind.
  destruct (returns_anatomy _ _ _ _ H)
    as (_ & _ & _ & EN2 & _ & _ & _ & HA & [ku DU] & [kl DL] & _).
  fold bind in DU, DL.
  exists kl, ku.
  assert (W := assembled_widths l HA).
  rewrite (boundaries_diffs l HA) in W.
  assert (Hlen : length (last (lsb2 l) 0 :: rev (map Z.opp (diffs (lsb2 l))))
                 = length (lsb2 l)).
  { cbn [length]. rewrite length_rev, length_map, diffs_length.
    destruct HA as (_ & _ & _ & _ & a & L' & U' & EL & _).
    rewrite EL. cbn [length]. lia. }
  assert (Elow : lower_widths l
                 = map Z.opp (diffs (lsb2 l)) ++ [last (lsb2 l) 0]).
  { unfold lower_widths. rewrite W, <- Hlen, firstn_exact.
    cbn [rev]. rewrite rev_involutive. reflexivity. }
  assert (Eup : upper_widths l
                = diffs (usb1 l) ++ [loc_N2 l - last (usb1 l) 0 + 1]).
  { unfold upper_widths. rewrite W, <- Hlen, skipn_exact. reflexivity. }
  split; [|split].
  - rewrite Elow, DL. reflexivity.
  - rewrite Eup, DU, EN2. reflexivity.
  - rewrite Elow, Eup, W. rewrite rev_app_distr. cbn [rev app].
    reflexivity.
Qed.

Lemma steps_from_8 (k : nat) : Forall (fun w => 8 <= w <= 1024) (steps k 8).
Proof. apply steps_bounds. lia. Qed.

Lemma repeat_8 (k : nat) : Forall (fun w => 8 <= w <= 1024) (repeat 8 k).
Proof.
  apply Forall_forall. intros x Hx. apply repeat_spec in Hx. lia.
Qed.

(** All bins but the outermost two hold between 3 and 1024 samples; with
    the tone region inside the half spectrum the outermost two hold at
    least one. *)
Lemma returns_widths_bounds (N tbin : Z) (f0 : Q) (l : locals) :
  bin_edges N tbin f0 = Returns l ->
  exists w0 inner wn,
    widths l = w0 :: inner ++ [wn] /\
    Forall (fun w => 3 <= w <= 1024) inner /\
    w0 <= 1537 /\ wn <= 1537 /\
    (well_placed N tbin f0 -> 1 <= w0 /\ 1 <= wn).
Proof.
  intros H.
  destruct (returns_anatomy _ _ _ _ H)
    as (_ & _ & _ & EN2 & _ & _ & _ & HA & [ku DU] & [kl DL] & B1 & B2 & WP).
  exists (last (lsb2 l) 0),
         (rev (map Z.opp (diffs (lsb2 l))) ++ diffs (usb1 l)),
         (loc_N2 l - last (usb1 l) 0 + 1).
  split; [|split; [|split; [|split]]].
  - rewrite (assembled_widths l HA), (boundaries_diffs l HA).
    cbn [app]. rewrite <- app_assoc. reflexivity.
  - apply Forall_app. split.
    + apply Forall_rev. rewrite DL. apply Forall_app. split.
      * destruct (5 <=? _); repeat constructor; lia.
      * eapply Forall_impl; [|apply steps_from_8]. cbn. intros; lia.
    + rewrite DU. apply Forall_app. split; [|apply Forall_app; split].
      * eapply Forall_impl; [|apply repeat_8]. cbn. intros; lia.
      * destruct (3 <=? _); repeat constructor; lia.
      * eapply Forall_impl; [|apply steps_from_8]. cbn. intros; lia.
  - exact B2.
  - exact B1.
  - intros Hwp. destruct (WP Hwp) as [H1 H2]. rewrite EN2. lia.
Qed.

Lemma boundaries_increasing (N tbin : Z) (f0 : Q) (l : locals) :
  bin_edges N tbin f0 = Returns l ->
  well_placed N tbin f0 ->
  increasing (boundaries l).
Proof.
  intros H Hwp.
  destruct (returns_anatomy _ _ _ _ H)
    as (_ & _ & _ & _ & _ & _ & _ & HA & _).
  destruct (returns_widths_bounds _ _ _ _ H)
    as (w0 & inner & wn & W & Hin & _ & _ & WP).
  destruct (WP Hwp) as [H0 Hn].
  unfold increasing. rewrite <- (assembled_widths l HA), W.
  constructor; [lia|]. apply Forall_app. split.
  - eapply Forall_impl; [|exact Hin]. cbn. intros; lia.
  - repeat constructor. lia.
Qed.

Ltac find_in := repeat (first [left; reflexivity | right]).

(** C3, as stated, fails on both counts.  On the input of the repository's
    test the upper sideband has a 3-sample bin at the tone behind 8-sample
    bins, so the widths drop from 8 to 3 moving outwards; and on a
    32000-point array the outermost upper bin holds 1459 samples. *)
Lemma widths_neither_ordered_nor_capped :
  (exists l,
      bplogsmooth_locals (repeat C0 4097) 1045 (1 # 8) = Returns l /\
      ~ nondecreasing (upper_widths l)) /\
  (exists l,
      bplogsmooth_locals (repeat C0 (Z.to_nat 32000)) 4005 (1 # 8) = Returns l /\
      ~ Forall (fun w => w <= 1024) (widths l)).
Proof.
  split.
  - eexists. split; [run_locals|].
    unfold nondecreasing. rewrite Forall_forall. intros H.
    specialize (H (-5)). cbv beta in H.
    assert (0 <= -5); [|lia].
    apply H. vm_compute. find_in.
  - eexists. split.
    + unfold bplogsmooth_locals. rewrite shape0_repeat by lia.
      cbn [obind]. vm_compute. reflexivity.
    + rewrite Forall_forall. intros H.
      specialize (H 1459). cbv beta in H.
      assert (1459 <= 1024); [|lia].
      apply H. vm_compute. find_in.
Qed.

Lemma nondecreasing_cons_steps (a : Z) (k : nat) :
  a <= 8 -> nondecreasing (a :: steps k 8).
Proof.
  intros Ha. destruct k as [|k]; [constructor|].
  unfold nondecreasing.
  change (diffs (a :: steps (S k) 8)) with ((8 - a) :: diffs (steps (S k) 8)).
  constructor; [lia|]. apply steps_nondecreasing. lia.
Qed.

(** C3, amended: whenever the routine gets as far as the bins, the width
    [stopbin[i] - startbin[i] + 1] of every bin is at most 1537, and that
    of every bin except the outermost bin of each sideband is at most 1024
    (and at least 8 in the lower sideband, at least 3 in the upper one).
    Leaving the outermost bins aside, the widths of the lower sideband
    never decrease moving away from the tone; those of the upper sideband
    are [k = floor((tbin - bin0)/8)] times 8, which leads from [bin1] to
    [tbin = bin1 + 8*k], followed by a run that never decreases: first 3
    when [bind >= 3], then widths of at least 8. *)
Theorem widths_inner_capped_and_ordered
  (X : list C) (tbin : Z) (f0 : Q) (l : locals) :
  bplogsmooth_locals X tbin f0 = Returns l ->
  Forall (fun w => w <= 1537) (widths l) /\
  Forall (fun w => 8 <= w <= 1024) (removelast (lower_widths l)) /\
  Forall (fun w => 3 <= w <= 1024) (removelast (upper_widths l)) /\
  nondecreasing (removelast (lower_widths l)) /\
  loc_bin1 l + 8 * ((tbin - loc_bin0 l) / 8) = tbin /\
  exists g,
    removelast (upper_widths l) =
      repeat 8 (Z.to_nat ((tbin - loc_bin0 l) / 8))
        ++ (if 3 <=? loc_bind l then 3 :: g else g) /\
    nondecreasing (if 3 <=? loc_bind l then 3 :: g else g) /\
    Forall (fun w => 8 <= w) g.
Proof.
  intros H. destruct (locals_inv _ _ _ _ H) as [_ Hb].
  destruct (returns_anatomy _ _ _ _ Hb)
    as (Hlt & _ & _ & _ & Eb0 & Eb1 & Ebd & _).
  destruct (returns_widths _ _ _ _ Hb) as (kl & ku & EL & EU & _).
  destruct (returns_widths_bounds _ _ _ _ Hb)
    as (w0 & inner & wn & W & Hin & H0 & Hn & _).
  rewrite EL, EU, !removelast_last, Eb0, Eb1, Ebd.
  split; [|split; [|split; [|split; [|split]]]].
  - rewrite W. constructor; [exact H0|]. apply Forall_app. split.
    + eapply Forall_impl; [|exact Hin]. cbn. intros; lia.
    + repeat constructor. exact Hn.
  - apply Forall_app. split.
    + destruct (5 <=? _); repeat constructor; lia.
    + apply steps_from_8.
  - apply Forall_app. split; [|apply Forall_app; split].
    + eapply Forall_impl; [|apply repeat_8]. cbn. intros; lia.
    + destruct (3 <=? _); repeat constructor; lia.
    + eapply Forall_impl; [|apply steps_from_8]. cbn. intros; lia.
  - destruct (5 <=? _); cbn [app].
    + apply nondecreasing_cons_steps. lia.
    + apply steps_nondecreasing. lia.
  - pose proof (Z.div_mod (tbin - mround (f0 * inject_Z (Z.of_nat (length X)))) 8
                          ltac:(lia)).
    lia.
  - exists (steps ku 8). split; [|split].
    + destruct (3 <=? _); reflexivity.
    + destruct (3 <=? _).
      * apply nondecreasing_cons_steps. lia.
      * apply steps_nondecreasing. lia.
    + eapply Forall_impl; [|apply steps_from_8]. cbn. intros; lia.
Qed.

Lemma widths_inner_capped_and_ordered_witness :
  exists l,
    bplogsmooth_locals (repeat C0 4097) 1045 (1 # 8) = Returns l /\
    Forall (fun w => w <= 1537) (widths l) /\
    nondecreasing (removelast (lower_widths l)) /\
    exists g,
      removelast (upper_widths l) = repeat 8 66 ++ 3 :: g /\
      nondecreasing (3 :: g).
Proof.
  assert (H : {l | bplogsmooth_locals (repeat C0 4097) 1045 (1 # 8) = Returns l})
    by (eexists; run_locals).
  destruct H as [l H]. exists l. split; [exact H|].
  destruct (widths_inner_capped_and_ordered _ _ _ _ H)
    as (E1 & _ & _ & E2 & _ & g & E3 & E4 & _).
  destruct (locals_inv _ _ _ _ H) as [_ Hb].
  destruct (returns_anatomy _ _ _ _ Hb)
    as (_ & _ & _ & _ & Eb0 & _ & Ebd & _).
  rewrite Eb0, Ebd, repeat_length in E3. rewrite Ebd, repeat_length in E4.
  split; [exact E1|]. split; [exact E2|].
  exists g. split; [exact E3 | exact E4].
Defined.

(** ** The bins as intervals between boundaries *)

Lemma returns_geometry (N tbin : Z) (f0 : Q) (l : locals) :
  bin_edges N tbin f0 = Returns l ->
  let b := boundaries l in
  let n := length (startbin l) in
  length (stopbin l) = n /\
  length b = S n /\
  n = (length (lsb2 l) + length (usb1 l))%nat /\
  (1 <= length (lsb2 l))%nat /\ (1 <= length (usb1 l))%nat /\
  nth 0 b 0 = 0 /\ nth n b 0 = N / 2 /\ loc_N2 l = N / 2 /\
  (forall i, (i < n)%nat ->
             nth i (startbin l) 0 = nth i b 0 /\
             nth i (stopbin l) 0 = nth (S i) b 0 - 1) /\
  (forall i, (0 < i)%nat -> (S i < n)%nat -> nth i b 0 + 3 <= nth (S i) b 0) /\
  (well_placed N tbin f0 -> increasing b).
Proof.
  intros H b n.
  destruct (returns_anatomy _ _ _ _ H)
    as (_ & _ & _ & EN2 & _ & _ & _ & HA & _).
  destruct (assembled_lengths l HA) as [Ls Le].
  pose proof (boundaries_length l HA) as Lb.
  assert (HL : (1 <= length (lsb2 l))%nat /\ (1 <= length (usb1 l))%nat).
  { destruct HA as (_ & _ & _ & _ & a & L' & U' & EL & EU).
    rewrite EL, EU. cbn [length]. lia. }
  fold b in Lb. fold n in Ls.
  split; [congruence|]. split; [lia|]. split; [exact Ls|].
  split; [apply HL|]. split; [apply HL|].
  split; [reflexivity|].
  split.
  { subst b. unfold boundaries.
    replace (0 :: rev (lsb2 l) ++ map (fun x => x - 1) (tl (usb1 l)) ++ [loc_N2 l])
      with ((0 :: rev (lsb2 l) ++ map (fun x => x - 1) (tl (usb1 l))) ++ [loc_N2 l])
      by (cbn [app]; rewrite <- app_assoc; reflexivity).
    replace n with (length (0 :: rev (lsb2 l) ++ map (fun x => x - 1) (tl (usb1 l)))).
    - rewrite nth_middle. exact EN2.
    - cbn [length]. rewrite length_app, length_rev, length_map.
      destruct HA as (_ & _ & _ & _ & a & L' & U' & EL & EU).
      rewrite Ls, EL, EU. cbn [tl length]. lia. }
  split; [exact EN2|].
  split.
  { intros i Hi. split.
    - apply (nth_startbin l i HA). exact Hi.
    - apply (nth_stopbin l i HA). exact Hi. }
  split.
  { intros i Hi0 Hi.
    destruct (returns_widths_bounds _ _ _ _ H)
      as (w0 & inner & wn & W & Hin & _).
    rewrite (assembled_widths l HA) in W. fold b in W.
    assert (Hd := diffs_nth b i ltac:(lia)).
    assert (Hlen : length inner = (n - 2)%nat).
    { assert (E := f_equal (@length Z) W).
      rewrite diffs_length in E. cbn [length] in E.
      rewrite length_app in E. cbn [length] in E. lia. }
    rewrite W in Hd. destruct i as [|j]; [lia|].
    cbn [nth] in Hd. rewrite app_nth1 in Hd by lia.
    rewrite Forall_forall in Hin.
    assert (Hj : In (nth j inner 0) inner) by (apply nth_In; lia).
    apply Hin in Hj. lia. }
  intros Hwp. exact (boundaries_increasing _ _ _ _ H Hwp).
Qed.

Lemma increasing_nth_le (l : list Z) (i j : nat) :
  increasing l -> (i <= j < length l)%nat -> nth i l 0 <= nth j l 0.
Proof.
  intros H [Hij Hj]. destruct (Nat.eq_dec i j) as [->|Hne]; [lia|].
  assert (nth i l 0 < nth j l 0) by (apply increasing_nth; [exact H | lia]).
  lia.
Qed.

Lemma boundaries_cover (b : list Z) (k : Z) (n : nat) :
  nth 0 b 0 <= k < nth n b 0 ->
  exists i, (i < n)%nat /\ nth i b 0 <= k < nth (S i) b 0.
Proof.
  induction n as [|n IH]; intros Hk; [lia|].
  destruct (Z_lt_le_dec k (nth n b 0)) as [Hlt|Hge].
  - destruct IH as (i & Hi & Hb); [lia|]. exists i. split; [lia | exact Hb].
  - exists n. split; [lia | lia].
Qed.

(** There are at least two bins, one in each sideband. *)
Lemma bin_count (X : list C) (tbin : Z) (f0 : Q) (l : locals) :
  bplogsmooth_locals X tbin f0 = Returns l ->
  (1 <= length (lsb2 l) < length (startbin l))%nat /\
  length (stopbin l) = length (startbin l).
Proof.
  intros H. destruct (locals_inv _ _ _ _ H) as [_ Hb].
  destruct (returns_geometry _ _ _ _ Hb) as (Le & _ & Ls & HL & HU & _).
  lia.
Qed.

(** ** Contiguity and non-empty bins *)

(** C4, as stated, fails: with [f0 = 0] and [tbin = 1] on a 100-sample
    array the first bin starts at sample 0 and stops at sample -1. *)
Lemma first_bin_can_be_empty :
  exists l,
    bplogsmooth_locals (repeat C0 100) 1 0 = Returns l /\
    (0 < length (startbin l))%nat /\
    nth 0 (stopbin l) 0 < nth 0 (startbin l) 0.
Proof.
  eexists. split; [run_locals|].
  split; vm_compute; [lia | reflexivity].
Qed.

(** C4, amended: whenever the routine gets as far as the bins, each bin
    stops one sample before the next one starts, and every bin except the
    first and the last holds at least one sample ([startbin[i] <=
    stopbin[i]]); the first and the last bin do so too when the tone
    region lies inside the half spectrum ([well_placed]). *)
Theorem bins_contiguous_and_inner_nonempty
  (X : list C) (tbin : Z) (f0 : Q) (l : locals) :
  bplogsmooth_locals X tbin f0 = Returns l ->
  let n := length (startbin l) in
  (forall i, (S i < n)%nat ->
             nth i (stopbin l) 0 + 1 = nth (S i) (startbin l) 0) /\
  (forall i, (0 < i)%nat -> (S i < n)%nat ->
             nth i (startbin l) 0 <= nth i (stopbin l) 0) /\
  (well_placed (Z.of_nat (length X)) tbin f0 ->
   forall i, (i < n)%nat -> nth i (startbin l) 0 <= nth i (stopbin l) 0).
Proof.
  intros H n. destruct (locals_inv _ _ _ _ H) as [_ Hb].
  destruct (returns_geometry _ _ _ _ Hb)
    as (_ & Lb & _ & _ & _ & _ & _ & _ & Hnth & Hin & Hwp).
  fold n in Lb, Hnth, Hin.
  split; [|split].
  - intros i Hi.
    destruct (Hnth i ltac:(lia)) as [_ E1].
    destruct (Hnth (S i) Hi) as [E2 _]. lia.
  - intros i Hi0 Hi.
    destruct (Hnth i ltac:(lia)) as [E1 E2].
    specialize (Hin i Hi0 Hi). lia.
  - intros WP i Hi.
    destruct (Hnth i Hi) as [E1 E2].
    assert (nth i (boundaries l) 0 < nth (S i) (boundaries l) 0)
      by (apply increasing_nth; [exact (Hwp WP) | lia]).
    lia.
Qed.

Lemma bins_contiguous_and_inner_nonempty_witness :
  exists l,
    bplogsmooth_locals (repeat C0 40) 13 (1 # 4) = Returns l /\
    nth 0 (stopbin l) 0 + 1 = nth 1 (startbin l) 0 /\
    nth 0 (startbin l) 0 <= nth 0 (stopbin l) 0.
Proof.
  assert (H : {l | bplogsmooth_locals (repeat C0 40) 13 (1 # 4) = Returns l})
    by (eexists; run_locals).
  destruct H as [l H]. exists l. split; [exact H|].
  destruct (bins_contiguous_and_inner_nonempty _ _ _ _ H) as (E1 & _ & E3).
  assert (Hn : (1 < length (startbin l))%nat).
  { destruct (bin_count _ _ _ _ H) as [A _]. lia. }
  split; [apply E1; exact Hn|].
  apply E3; [|lia].
  rewrite repeat_length. vm_compute. split; discriminate.
Defined.

(** ** The two sidebands together *)

Lemma well_placed_partition
  (X : list C) (tbin : Z) (f0 : Q) (l : locals) :
  bplogsmooth_locals X tbin f0 = Returns l ->
  well_placed (Z.of_nat (length X)) tbin f0 ->
  partition_of_half l.
Proof.
  intros H WP. destruct (locals_inv _ _ _ _ H) as [_ Hb].
  destruct (returns_geometry _ _ _ _ Hb)
    as (Le & Lb & Ls & HL & HU & B0 & Bn & EN2 & Hnth & _ & Hwp).
  set (n := length (startbin l)) in *.
  specialize (Hwp WP).
  assert (Hbin : forall i k, in_bin l i k ->
            (i < n)%nat /\
            nth i (boundaries l) 0 <= k < nth (S i) (boundaries l) 0).
  { intros i k [Hi Hk]. fold n in Hi. split; [exact Hi|].
    destruct (Hnth i Hi) as [E1 E2]. lia. }
  split; [|split; [|split]].
  + intros i Hi. fold n in Hi. destruct (Hnth i Hi) as [E1 E2].
    assert (nth i (boundaries l) 0 < nth (S i) (boundaries l) 0)
      by (apply increasing_nth; [exact Hwp | lia]).
    lia.
  + intros i k Hk. destruct (Hbin i k Hk) as [Hi Hr].
    assert (nth 0 (boundaries l) 0 <= nth i (boundaries l) 0)
      by (apply increasing_nth_le; [exact Hwp | lia]).
    assert (nth (S i) (boundaries l) 0 <= nth n (boundaries l) 0)
      by (apply increasing_nth_le; [exact Hwp | lia]).
    lia.
  + intros k Hk.
    destruct (boundaries_cover (boundaries l) k n) as (i & Hi & Hr); [lia|].
    exists i. split; [exact Hi|].
    destruct (Hnth i Hi) as [E1 E2]. lia.
  + intros i j k Hi Hj.
    destruct (Hbin i k Hi) as [Li Ri]. destruct (Hbin j k Hj) as [Lj Rj].
    destruct (Nat.lt_trichotomy i j) as [Hlt | [Heq | Hgt]]; [|exact Heq|].
    * assert (nth (S i) (boundaries l) 0 <= nth j (boundaries l) 0)
        by (apply increasing_nth_le; [exact Hwp | lia]).
      lia.
    * assert (nth (S j) (boundaries l) 0 <= nth i (boundaries l) 0)
        by (apply increasing_nth_le; [exact Hwp | lia]).
      lia.
Qed.

(** C9, as stated, fails: with [f0 = 3/10] and [tbin = 65] on a
    100-sample array ([N2 = 50]) the routine returns, but the last bin
    starts at sample 67 and stops at sample 49, so the bins are not a
    partition of the samples 0 to 49. *)
Lemma bins_need_not_partition :
  exists l,
    bplogsmooth_locals (repeat C0 100) 65 (3 # 10) = Returns l /\
    ~ partition_of_half l.
Proof.
  eexists. split; [run_locals|].
  intros (P1 & _).
  assert (Hlt : (8 < 9)%nat) by lia.
  apply P1 in Hlt. vm_compute in Hlt. apply Hlt. reflexivity.
Qed.

(** C9, amended: whenever the routine gets as far as the bins, the last
    lower-sideband bin stops one sample before the first upper-sideband bin
    starts, and so does every bin before its successor, from a first start
    at sample 0 to a last stop at sample [N2 - 1]; when the tone region
    lies inside the half spectrum ([well_placed]) the bins are a partition
    of the samples 0 to [N2 - 1] into non-empty intervals. *)
Theorem sidebands_meet
  (X : list C) (tbin : Z) (f0 : Q) (l : locals) :
  bplogsmooth_locals X tbin f0 = Returns l ->
  let n := length (startbin l) in
  let nlow := length (lsb2 l) in
  (1 <= nlow < n)%nat /\
  nth (nlow - 1) (stopbin l) 0 + 1 = nth nlow (startbin l) 0 /\
  (forall i, (S i < n)%nat ->
             nth i (stopbin l) 0 + 1 = nth (S i) (startbin l) 0) /\
  nth 0 (startbin l) 0 = 0 /\
  nth (n - 1) (stopbin l) 0 = loc_N2 l - 1 /\
  (well_placed (Z.of_nat (length X)) tbin f0 -> partition_of_half l).
Proof.
  intros H n nlow. destruct (locals_inv _ _ _ _ H) as [_ Hb].
  destruct (returns_geometry _ _ _ _ Hb)
    as (Le & Lb & Ls & HL & HU & B0 & Bn & EN2 & Hnth & _ & Hwp).
  fold n in Le, Lb, Ls, Bn, Hnth. fold nlow in Ls, HL.
  assert (Hchain : forall i, (S i < n)%nat ->
                     nth i (stopbin l) 0 + 1 = nth (S i) (startbin l) 0).
  { intros i Hi.
    destruct (Hnth i ltac:(lia)) as [_ E1].
    destruct (Hnth (S i) Hi) as [E2 _]. lia. }
  split; [lia|]. split; [|split; [exact Hchain|split; [|split]]].
  - replace nlow with (S (nlow - 1)) at 2 by lia. apply Hchain. lia.
  - destruct (Hnth 0%nat ltac:(lia)) as [E _]. rewrite E. exact B0.
  - destruct (Hnth (n - 1)%nat ltac:(lia)) as [_ E]. rewrite E.
    replace (S (n - 1)) with n by lia. lia.
  - intros WP. exact (well_placed_partition X tbin f0 l H WP).
Qed.

Lemma sidebands_meet_witness :
  exists l,
    bplogsmooth_locals (repeat C0 40) 13 (1 # 4) = Returns l /\
    nth (length (lsb2 l) - 1) (stopbin l) 0 + 1
      = nth (length (lsb2 l)) (startbin l) 0 /\
    partition_of_half l.
Proof.
  assert (H : {l | bplogsmooth_locals (repeat C0 40) 13 (1 # 4) = Returns l})
    by (eexists; run_locals).
  destruct H as [l H]. exists l. split; [exact H|].
  destruct (sidebands_meet _ _ _ _ H) as (_ & E1 & _ & _ & _ & E2).
  split; [exact E1|].
  apply E2. rewrite repeat_length. vm_compute. split; discriminate.
Defined.

(** ** Indices stay inside the array *)

(** C10, as stated, fails: with [f0 = 0] and [tbin = 5] on a 100-sample
    array the routine returns with a second bin that starts at sample -4
    (and a first bin of width -4). *)
Lemma bin_can_start_below_zero :
  exists l,
    bplogsmooth_locals (repeat C0 100) 5 0 = Returns l /\
    (1 < length (startbin l))%nat /\
    nth 1 (startbin l) 0 < 0 /\
    nth 0 (stopbin l) 0 - nth 0 (startbin l) 0 + 1 < 1.
Proof.
  eexists. split; [run_locals|].
  split; [|split]; vm_compute; [lia | reflexivity | reflexivity].
Qed.

(** C10, amended: whenever the routine gets as far as the bins and the tone
    region lies inside the half spectrum ([well_placed]), every index it
    reads is in bounds, [0 <= startbin[i]] and [stopbin[i] <= N2 <=
    len(X) - 1] (indeed [stopbin[i] <= N2 - 1]), and the divisor
    [stopbin[i] - startbin[i] + 1] is at least 1. *)
Theorem indices_in_bounds
  (X : list C) (tbin : Z) (f0 : Q) (l : locals) :
  bplogsmooth_locals X tbin f0 = Returns l ->
  well_placed (Z.of_nat (length X)) tbin f0 ->
  loc_N2 l <= Z.of_nat (length X) - 1 /\
  forall i, (i < length (startbin l))%nat ->
    0 <= nth i (startbin l) 0 /\
    nth i (stopbin l) 0 <= loc_N2 l - 1 /\
    nth i (stopbin l) 0 <= loc_N2 l /\
    1 <= nth i (stopbin l) 0 - nth i (startbin l) 0 + 1.
Proof.
  intros H WP.
  destruct (well_placed_partition X tbin f0 l H WP) as (P1 & P2 & _ & _).
  destruct (locals_inv _ _ _ _ H) as [_ Hb].
  destruct (returns_geometry _ _ _ _ Hb)
    as (_ & _ & _ & _ & _ & _ & _ & EN2 & _).
  assert (Hi0 : forall i, (i < length (startbin l))%nat ->
                  0 <= nth i (startbin l) 0 /\
                  nth i (stopbin l) 0 <= loc_N2 l - 1 /\
                  nth i (startbin l) 0 <= nth i (stopbin l) 0).
  { intros i Hi. specialize (P1 i Hi).
    assert (A : in_bin l i (nth i (startbin l) 0)) by (split; [exact Hi | lia]).
    assert (B : in_bin l i (nth i (stopbin l) 0)) by (split; [exact Hi | lia]).
    apply P2 in A. apply P2 in B. lia. }
  split.
  - destruct (bin_count _ _ _ _ H) as [Hc _].
    destruct (Hi0 0%nat ltac:(lia)) as (A & B & D).
    rewrite EN2 in *.
    pose proof (Z.div_mod (Z.of_nat (length X)) 2 ltac:(lia)).
    pose proof (Z.mod_pos_bound (Z.of_nat (length X)) 2 ltac:(lia)).
    lia.
  - intros i Hi. destruct (Hi0 i Hi) as (A & B & D). lia.
Qed.

Lemma indices_in_bounds_witness :
  exists l,
    bplogsmooth_locals (repeat C0 40) 13 (1 # 4) = Returns l /\
    loc_N2 l <= 40 - 1 /\
    0 <= nth 0 (startbin l) 0 /\
    1 <= nth 0 (stopbin l) 0 - nth 0 (startbin l) 0 + 1.
Proof.
  assert (H : {l | bplogsmooth_locals (repeat C0 40) 13 (1 # 4) = Returns l})
    by (eexists; run_locals).
  destruct H as [l H]. exists l. split; [exact H|].
  assert (WP : well_placed (Z.of_nat (length (repeat C0 40))) 13 (1 # 4))
    by (rewrite repeat_length; vm_compute; split; discriminate).
  destruct (indices_in_bounds _ _ _ _ H WP) as (E1 & E2).
  rewrite repeat_length in E1.
  destruct (bin_count _ _ _ _ H) as [Hc _].
  destruct (E2 0%nat ltac:(lia)) as (A & _ & _ & B).
  repeat split; [exact E1 | exact A | exact B].
Defined.

(** ** The frequencies *)

Lemma Qincreasing_nth (l : list Q) (i : nat) :
  Qincreasing l -> (S i < length l)%nat -> (nth i l 0 < nth (S i) l 0)%Q.
Proof.
  revert i. induction l as [|a l IH]; intros i H Hi; [cbn in Hi; lia|].
  destruct l as [|b l]; [cbn in Hi; lia|].
  destruct H as [Hab H]. destruct i as [|i]; [exact Hab|].
  apply (IH i H). cbn [length] in *. lia.
Qed.

Lemma Qincreasing_of_nth (l : list Q) :
  (forall i, (S i < length l)%nat -> (nth i l 0 < nth (S i) l 0)%Q) ->
  Qincreasing l.
Proof.
  induction l as [|a l IH]; intros H; [exact I|].
  destruct l as [|b l]; [exact I|].
  split.
  - apply (H 0%nat). cbn [length]. lia.
  - apply IH. intros i Hi. apply (H (S i)). cbn [length] in *. lia.
Qed.

Lemma nth_map_combine {A : Type} (g : Z * Z -> A) (d : A) (s e : list Z) (i : nat) :
  length e = length s -> (i < length s)%nat ->
  nth i (map g (combine s e)) d = g (nth i s 0, nth i e 0).
Proof.
  intros Hl Hi.
  rewrite (nth_indep _ d (g (0, 0)))
    by (rewrite length_map, length_combine; lia).
  rewrite map_nth, combine_nth by congruence. reflexivity.
Qed.

Lemma centre_lt (N : Z) (f0 : Q) (a b a' b' : Z) :
  0 < N -> a + b < a' + b' -> (centre N f0 a b < centre N f0 a' b')%Q.
Proof.
  intros HN Hab. unfold centre, Qminus.
  apply Qplus_lt_l. unfold Qdiv.
  apply Qmult_lt_compat_r.
  - apply Qinv_lt_0_compat. change 0%Q with (inject_Z 0).
    rewrite <- Zlt_Qlt. exact HN.
  - apply Qmult_lt_compat_r; [reflexivity|].
    rewrite <- Zlt_Qlt. exact Hab.
Qed.

Lemma well_placed_length (N tbin : Z) (f0 : Q) :
  mround (f0 * inject_Z N) < tbin -> well_placed N tbin f0 -> 4 <= N.
Proof.
  intros Hlt [Hlo Hhi].
  set (bin0 := mround (f0 * inject_Z N)) in *.
  assert (Hd := Z.div_mod (tbin - bin0) 8 ltac:(lia)).
  assert (Hk : 0 <= (tbin - bin0) / 8) by (apply Z.div_pos; lia).
  pose proof (Z.div_mod N 2 ltac:(lia)).
  pose proof (Z.mod_pos_bound N 2 ltac:(lia)).
  destruct (5 <=? (tbin - bin0) mod 8); destruct (3 <=? (tbin - bin0) mod 8); lia.
Qed.

(** C6, as stated, fails: with [f0 = 3/10] and [tbin = 65] on a
    100-sample array the last bin runs from sample 67 back to sample 49,
    and the last frequency is smaller than the one before it. *)
Lemma frequencies_can_descend :
  exists f p,
    bplogsmooth (repeat C0 100) 65 (3 # 10) = Returns (f, p) /\
    ~ Qincreasing f.
Proof.
  evar (l0 : locals).
  assert (E : bplogsmooth_locals (repeat C0 100) 65 (3 # 10) = Returns l0)
    by (subst l0; run_locals).
  unfold bplogsmooth. rewrite E. cbn [obind].
  eexists _, _. split; [reflexivity|].
  intros H. apply (Qincreasing_nth _ 7) in H.
  - subst l0. vm_compute in H. discriminate H.
  - subst l0. vm_compute. lia.
Qed.

Lemma centre_lt_inv (N : Z) (f0 : Q) (a b a' b' : Z) :
  0 < N -> (centre N f0 a b < centre N f0 a' b')%Q -> a + b < a' + b'.
Proof.
  intros HN H.
  destruct (Z_lt_le_dec (a + b) (a' + b')) as [Hlt|Hge]; [exact Hlt|].
  exfalso. destruct (Z.eq_dec (a + b) (a' + b')) as [E|E].
  - unfold centre in H. rewrite E in H. exact (Qlt_irrefl _ H).
  - assert (Hgt : (centre N f0 a' b' < centre N f0 a b)%Q)
      by (apply centre_lt; lia).
    exact (Qlt_irrefl _ (Qlt_trans _ _ _ H Hgt)).
Qed.

(** Division by [N = 0] is not an error in the array arithmetic of line
    73; here all frequencies collapse. *)
Lemma centre_empty (f0 : Q) (a b a' b' : Z) :
  ~ (centre 0 f0 a b < centre 0 f0 a' b')%Q.
Proof.
  unfold centre, Qlt, Qminus, Qplus, Qopp, Qdiv, Qmult, Qinv, inject_Z.
  cbn [Qnum Qden]. lia.
Qed.

(** C6, amended: whenever the routine returns, [f] and [p] have the same
    length, the number [n] of bins.  [f] is strictly ascending exactly
    when [X] is not empty, the second bin stops at or after sample 0
    ([stopbin[1] >= 0]) and the last bin but one starts before sample
    [N2] ([startbin[n-2] <= N2 - 1]); that is so, in particular, when the
    tone region lies inside the half spectrum ([well_placed]). *)
Theorem outputs_aligned_and_ascending
  (X : list C) (tbin : Z) (f0 : Q) (f : list Q) (p : list R) (l : locals) :
  bplogsmooth X tbin f0 = Returns (f, p) ->
  bplogsmooth_locals X tbin f0 = Returns l ->
  let n := length (startbin l) in
  length f = length p /\ length f = n /\
  (Qincreasing f <->
   0 < Z.of_nat (length X) /\
   0 <= nth 1 (stopbin l) 0 /\
   nth (n - 2) (startbin l) 0 <= loc_N2 l - 1) /\
  (well_placed (Z.of_nat (length X)) tbin f0 -> Qincreasing f).
Proof.
  intros H Hl n.
  destruct (bplogsmooth_inv _ _ _ _ _ H) as (l' & Hl' & -> & ->).
  assert (l' = l) by congruence. subst l'.
  destruct (locals_inv _ _ _ _ Hl) as [_ Hb].
  destruct (returns_anatomy _ _ _ _ Hb) as (Hlt & _ & EN & _).
  destruct (returns_geometry _ _ _ _ Hb)
    as (Le & Lb & Ls & HL & HU & B0 & Bn & EN2 & Hnth & Hin & Hwp).
  fold n in Le, Lb, Ls, Bn, Hnth, Hin.
  set (N := Z.of_nat (length X)) in *.
  set (F := map (fun ab => centre (loc_N l) f0 (fst ab) (snd ab))
                (combine (startbin l) (stopbin l))).
  assert (LF : length F = n)
    by (subst F; rewrite length_map, length_combine, Le, Nat.min_id; reflexivity).
  assert (EF : forall i, (i < n)%nat ->
             nth i F 0%Q = centre N f0 (nth i (startbin l) 0) (nth i (stopbin l) 0)).
  { intros i Hi. subst F. rewrite nth_map_combine by assumption.
    cbn [fst snd]. rewrite EN. reflexivity. }
  (* two neighbours are in order when the boundaries two apart are *)
  assert (Hstep : forall i, (S i < n)%nat -> 0 < N ->
            ((nth i F 0 < nth (S i) F 0)%Q <->
             nth i (boundaries l) 0 < nth (S (S i)) (boundaries l) 0)).
  { intros i Hi HN. rewrite !EF by lia.
    destruct (Hnth i ltac:(lia)) as [E1 E2].
    destruct (Hnth (S i) Hi) as [E3 E4].
    split; intros A.
    - apply centre_lt_inv in A; [lia | exact HN].
    - apply centre_lt; [exact HN | lia]. }
  split; [rewrite LF, length_map, length_combine, Le, Nat.min_id; reflexivity|].
  split; [exact LF|].
  assert (Hiff : Qincreasing F <->
            0 < N /\ 0 <= nth 1 (stopbin l) 0 /\
            nth (n - 2) (startbin l) 0 <= loc_N2 l - 1).
  { split.
    - intros Hinc.
      assert (HN : 0 < N).
      { destruct (Z_lt_le_dec 0 N) as [HN|HN]; [exact HN|]. exfalso.
        assert (N = 0) by (subst N; lia).
        pose proof (Qincreasing_nth F 0 Hinc ltac:(lia)) as A.
        rewrite !EF in A by lia. rewrite H0 in A.
        exact (centre_empty _ _ _ _ _ A). }
      split; [exact HN|]. split.
      + pose proof (Qincreasing_nth F 0 Hinc ltac:(lia)) as A.
        apply (Hstep 0%nat ltac:(lia) HN) in A.
        destruct (Hnth 1%nat ltac:(lia)) as [_ E]. lia.
      + pose proof (Qincreasing_nth F (n - 2) Hinc ltac:(lia)) as A.
        apply (Hstep (n - 2)%nat ltac:(lia) HN) in A.
        replace (S (S (n - 2))) with n in A by lia.
        destruct (Hnth (n - 2)%nat ltac:(lia)) as [E _]. lia.
    - intros (HN & H1 & H2).
      apply Qincreasing_of_nth. intros i Hi. rewrite LF in Hi.
      apply (Hstep i Hi HN).
      destruct (Nat.eq_dec i 0) as [->|Hi0].
      + destruct (Hnth 1%nat ltac:(lia)) as [_ E]. lia.
      + destruct (Nat.eq_dec (S (S i)) n) as [En|En].
        * replace (n - 2)%nat with i in H2 by lia.
          destruct (Hnth i ltac:(lia)) as [E _]. rewrite En. lia.
        * pose proof (Hin i ltac:(lia) Hi).
          pose proof (Hin (S i) ltac:(lia) ltac:(lia)). lia. }
  split; [exact Hiff|].
  intros WP. specialize (Hwp WP).
  pose proof (well_placed_length _ _ _ Hlt WP) as HN.
  apply Hiff. split; [subst N; lia|]. split.
  - destruct (Hnth 1%nat ltac:(lia)) as [_ E]. rewrite E.
    assert (nth 0 (boundaries l) 0 < nth 2 (boundaries l) 0)
      by (apply increasing_nth; [exact Hwp | lia]).
    lia.
  - destruct (Hnth (n - 2)%nat ltac:(lia)) as [E _]. rewrite E.
    assert (nth (n - 2) (boundaries l) 0 < nth n (boundaries l) 0)
      by (apply increasing_nth; [exact Hwp | lia]).
    lia.
Qed.

Lemma outputs_aligned_and_ascending_witness :
  exists f p l,
    bplogsmooth (repeat C0 100) 5 0 = Returns (f, p) /\
    bplogsmooth_locals (repeat C0 100) 5 0 = Returns l /\
    length f = length p /\ Qincreasing f.
Proof.
  evar (l0 : locals).
  assert (Hl : bplogsmooth_locals (repeat C0 100) 5 0 = Returns l0)
    by (subst l0; run_locals).
  assert (H : {fp | bplogsmooth (repeat C0 100) 5 0 = Returns fp}).
  { unfold bplogsmooth. rewrite Hl. cbn [obind]. eexists. reflexivity. }
  destruct H as [[f p] H].
  exists f, p, l0. split; [exact H|]. split; [exact Hl|].
  destruct (outputs_aligned_and_ascending _ _ _ _ _ _ H Hl) as (E1 & _ & E2 & _).
  split; [exact E1|].
  apply E2. rewrite repeat_length. subst l0.
  split; [reflexivity|]. split; vm_compute; discriminate.
Defined.

(** ** The powers *)

Lemma Cnorm2_nonneg (z : C) : (0 <= Cnorm2 z)%R.
Proof. unfold Cnorm2. Lra.nra. Qed.

(** [|z^2 / w| = |z|^2 / w] for a positive [w]. *)
Lemma Cmod_scale_sqr (z : C) (w : R) :
  (0 < w)%R -> Cmod (Cscale (Csqr z) w) = (Cnorm2 z / w)%R.
Proof.
  intros Hw. unfold Cmod, Cscale, Csqr, Cmul. cbn [fst snd].
  destruct z as [a b]. cbn [fst snd].
  replace ((a * a - b * b) / w * ((a * a - b * b) / w)
           + (a * b + b * a) / w * ((a * b + b * a) / w))%R
    with ((Cnorm2 (a, b) / w) * (Cnorm2 (a, b) / w))%R
    by (unfold Cnorm2; cbn [fst snd]; field; Lra.lra).
  apply sqrt_square.
  apply Rmult_le_pos; [apply Cnorm2_nonneg|].
  apply Rlt_le, Rinv_0_lt_compat, Hw.
Qed.

Lemma norm1_scale_sqr (v : list C) (w : R) :
  (0 < w)%R ->
  norm1 (map (fun z => Cscale (Csqr z) w) v) = (Rsum (map Cnorm2 v) / w)%R.
Proof.
  intros Hw. induction v as [|z v IH].
  - cbn. field. Lra.lra.
  - cbn [map].
    change (norm1 (?a :: ?t)) with (Cmod a + norm1 t)%R.
    change (Rsum (?a :: ?t)) with (a + Rsum t)%R.
    rewrite IH, Cmod_scale_sqr by exact Hw.
    field. Lra.lra.
Qed.

Lemma skipn_nth_error {A : Type} (X : list A) (k : nat) (z : A) :
  nth_error X k = Some z -> skipn k X = z :: skipn (S k) X.
Proof.
  revert k. induction X as [|x X IH]; intros [|k] H; try discriminate.
  - injection H as ->. reflexivity.
  - cbn [nth_error] in H. cbn [skipn]. rewrite (IH k H). reflexivity.
Qed.

(** Inside the array the samples [X[a..b]] are the slice [X[a:b+1]]. *)
Lemma samples_in_range (X : list C) (n : nat) :
  forall a, 0 <= a -> a + Z.of_nat n <= Z.of_nat (length X) ->
  samples X a (a + Z.of_nat n - 1) = firstn n (skipn (Z.to_nat a) X).
Proof.
  unfold samples. induction n as [|n IH]; intros a Ha Hn.
  - replace (a + Z.of_nat 0 - 1 - a + 1) with 0 by lia. reflexivity.
  - replace (Z.to_nat (a + Z.of_nat (S n) - 1 - a + 1)) with (S n) by lia.
    change (seq 0 (S n)) with (0%nat :: seq 1 n).
    rewrite <- seq_shift. cbn [flat_map]. rewrite flat_map_concat_map, map_map,
      <- flat_map_concat_map.
    replace (a + Z.of_nat 0) with a by lia.
    destruct (Z.ltb_spec a 0) as [Hneg|_]; [lia|].
    destruct (nth_error X (Z.to_nat a)) as [z|] eqn:E.
    2:{ apply nth_error_None in E. lia. }
    rewrite (skipn_nth_error _ _ _ E). cbn [firstn app]. f_equal.
    replace (S (Z.to_nat a)) with (Z.to_nat (a + 1)) by lia.
    rewrite <- (IH (a + 1)) by lia.
    replace (Z.to_nat (a + 1 + Z.of_nat n - 1 - (a + 1) + 1)) with n by lia.
    apply flat_map_ext. intros i.
    replace (a + 1 + Z.of_nat i) with (a + Z.of_nat (S i)) by lia.
    reflexivity.
Qed.

Lemma py_slice_in_range (X : list C) (a b : Z) :
  0 <= a <= b -> b < Z.of_nat (length X) ->
  py_slice X a (b + 1) = samples X a b.
Proof.
  intros Hab Hb. unfold py_slice, py_index.
  destruct (Z.ltb_spec a 0); [lia|]. destruct (Z.ltb_spec (b + 1) 0); [lia|].
  rewrite !Z.min_l by lia.
  replace b with (a + Z.of_nat (Z.to_nat (b + 1 - a)) - 1) at 2 by lia.
  rewrite samples_in_range by lia. reflexivity.
Qed.

(** For a bin inside the array the argument of [dbp] is the mean squared
    magnitude. *)
Lemma bin_power_in_range (X : list C) (a b : Z) :
  0 <= a <= b -> b < Z.of_nat (length X) ->
  bin_power X a b = mean_power X a b.
Proof.
  intros Hab Hb. unfold bin_power, mean_power.
  rewrite py_slice_in_range by assumption.
  apply norm1_scale_sqr. apply IZR_lt. lia.
Qed.

Lemma norm1_zeros (n : nat) (w : R) :
  norm1 (map (fun z => Cscale (Csqr z) w) (repeat C0 n)) = 0%R.
Proof.
  induction n as [|n IH]; [reflexivity|].
  cbn [repeat map].
  change (norm1 (?a :: ?t)) with (Cmod a + norm1 t)%R.
  rewrite IH. unfold Cmod, Cscale, Csqr, Cmul, C0. cbn [fst snd].
  replace ((0 * 0 - 0 * 0) / w * ((0 * 0 - 0 * 0) / w)
           + (0 * 0 + 0 * 0) / w * ((0 * 0 + 0 * 0) / w))%R
    with 0%R by (unfold Rdiv; ring).
  rewrite sqrt_0. ring.
Qed.

Lemma dbp_0 : dbp 0 = 0%R.
Proof.
  unfold dbp, ln. destruct (Rlt_dec 0 0) as [H|_].
  - exfalso. exact (Rlt_irrefl 0 H).
  - unfold Rdiv. ring.
Qed.

Lemma dbp_100 : dbp 100 <> 0%R.
Proof.
  unfold dbp, Rdiv.
  assert (ln 100 <> 0%R) by (apply ln_neq_0; Lra.lra).
  assert (ln 10 <> 0%R) by (apply ln_neq_0; Lra.lra).
  apply Rmult_integral_contrapositive_currified; [Lra.lra|].
  apply Rmult_integral_contrapositive_currified; [assumption|].
  apply Rinv_neq_0_compat. assumption.
Qed.

(** C5, as stated, fails.  With [f0 = 0] and [tbin = 5] on a 100-sample
    array whose first sample is 20 and whose other samples are 0, the first
    bin has [startbin = 0] and [stopbin = -5]: there is no sample between
    the two, yet the routine reads [X[0:-4]], the first 96 samples, divides
    by the width -4, takes moduli, and reports [dbp(100)]. *)
Lemma power_of_inverted_bin :
  exists f p l,
    bplogsmooth ((20, 0)%R :: repeat C0 99) 5 0 = Returns (f, p) /\
    bplogsmooth_locals ((20, 0)%R :: repeat C0 99) 5 0 = Returns l /\
    nth 0 (startbin l) 0 = 0 /\ nth 0 (stopbin l) 0 = -5 /\
    nth 0 p 0%R = dbp 100 /\
    nth 0 p 0%R <>
      dbp (mean_power ((20, 0)%R :: repeat C0 99)
                      (nth 0 (startbin l) 0) (nth 0 (stopbin l) 0)).
Proof.
  evar (l0 : locals).
  assert (E : bplogsmooth_locals ((20, 0)%R :: repeat C0 99) 5 0 = Returns l0).
  { subst l0. unfold bplogsmooth_locals.
    rewrite shape0_length by (cbn [length]; rewrite repeat_length; discriminate).
    cbn [obind length]. rewrite repeat_length. vm_compute. reflexivity. }
  unfold bplogsmooth. rewrite E. cbn [obind].
  eexists _, _, l0. split; [reflexivity|]. split; [reflexivity|].
  subst l0. cbn [startbin stopbin combine map nth fst snd].
  assert (P : bin_power ((20, 0)%R :: repeat C0 99) 0 (-5) = 100%R).
  { unfold bin_power.
    change (py_slice ((20, 0)%R :: repeat C0 99) 0 (-5 + 1))
      with ((20, 0)%R :: repeat C0 95).
    cbn [map]. change (norm1 (?a :: ?t)) with (Cmod a + norm1 t)%R.
    rewrite norm1_zeros.
    unfold Cmod, Cscale, Csqr, Cmul. cbn [fst snd].
    change (-5 - 0 + 1) with (-4).
    replace ((20 * 20 - 0 * 0) / -4 * ((20 * 20 - 0 * 0) / -4)
             + (20 * 0 + 0 * 20) / -4 * ((20 * 0 + 0 * 20) / -4))%R
      with (100 * 100)%R by (field; Lra.lra).
    rewrite sqrt_square by Lra.lra. ring. }
  assert (M : mean_power ((20, 0)%R :: repeat C0 99) 0 (-5) = 0%R).
  { unfold mean_power.
    change (samples ((20, 0)%R :: repeat C0 99) 0 (-5)) with (@nil C).
    cbn [map Rsum fold_right]. unfold Rdiv. ring. }
  split; [reflexivity|]. split; [reflexivity|].
  rewrite P, M, dbp_0. split; [reflexivity | exact dbp_100].
Qed.

(** C5, amended: whenever the routine returns, the output power of every
    bin that lies inside the array and holds at least one sample
    ([0 <= startbin[i] <= stopbin[i] < len(X)]) is [dbp] of the mean
    squared magnitude of the samples [X[startbin[i]..stopbin[i]]], the sum
    of the squared magnitudes over the bin width; that is every bin when
    the tone region lies inside the half spectrum ([well_placed]). *)
Theorem power_is_mean_square
  (X : list C) (tbin : Z) (f0 : Q) (f : list Q) (p : list R) (l : locals) :
  bplogsmooth X tbin f0 = Returns (f, p) ->
  bplogsmooth_locals X tbin f0 = Returns l ->
  (forall i, (i < length (startbin l))%nat ->
     0 <= nth i (startbin l) 0 <= nth i (stopbin l) 0 ->
     nth i (stopbin l) 0 < Z.of_nat (length X) ->
     nth i p 0%R =
       dbp (mean_power X (nth i (startbin l) 0) (nth i (stopbin l) 0))) /\
  (well_placed (Z.of_nat (length X)) tbin f0 ->
   forall i, (i < length (startbin l))%nat ->
     nth i p 0%R =
       dbp (mean_power X (nth i (startbin l) 0) (nth i (stopbin l) 0))).
Proof.
  intros H Hl. destruct (bplogsmooth_inv _ _ _ _ _ H) as (l' & Hl' & _ & ->).
  assert (l' = l) by congruence. subst l'.
  destruct (bin_count _ _ _ _ Hl) as [_ Le].
  assert (Hin : forall i, (i < length (startbin l))%nat ->
     0 <= nth i (startbin l) 0 <= nth i (stopbin l) 0 ->
     nth i (stopbin l) 0 < Z.of_nat (length X) ->
     nth i (map (fun ab => dbp (bin_power X (fst ab) (snd ab)))
                (combine (startbin l) (stopbin l))) 0%R =
       dbp (mean_power X (nth i (startbin l) 0) (nth i (stopbin l) 0))).
  { intros i Hi Hr Hb.
    rewrite nth_map_combine by assumption. cbn [fst snd].
    rewrite bin_power_in_range by assumption. reflexivity. }
  split; [exact Hin|].
  intros WP i Hi.
  destruct (well_placed_partition X tbin f0 l Hl WP) as (P1 & P2 & _ & _).
  destruct (locals_inv _ _ _ _ Hl) as [_ Hb].
  destruct (returns_geometry _ _ _ _ Hb)
    as (_ & _ & _ & _ & _ & _ & _ & EN2 & _).
  specialize (P1 i Hi).
  assert (A : in_bin l i (nth i (startbin l) 0)) by (split; [exact Hi | lia]).
  assert (B : in_bin l i (nth i (stopbin l) 0)) by (split; [exact Hi | lia]).
  apply P2 in A. apply P2 in B.
  pose proof (Z.div_mod (Z.of_nat (length X)) 2 ltac:(lia)).
  pose proof (Z.mod_pos_bound (Z.of_nat (length X)) 2 ltac:(lia)).
  apply Hin; [exact Hi | lia | lia].
Qed.

Lemma power_is_mean_square_witness :
  exists f p l,
    bplogsmooth (repeat C0 40) 13 (1 # 4) = Returns (f, p) /\
    bplogsmooth_locals (repeat C0 40) 13 (1 # 4) = Returns l /\
    nth 0 p 0%R =
      dbp (mean_power (repeat C0 40) (nth 0 (startbin l) 0) (nth 0 (stopbin l) 0)).
Proof.
  assert (Hl : {l | bplogsmooth_locals (repeat C0 40) 13 (1 # 4) = Returns l})
    by (eexists; run_locals).
  destruct Hl as [l Hl].
  assert (H : {fp | bplogsmooth (repeat C0 40) 13 (1 # 4) = Returns fp}).
  { unfold bplogsmooth. rewrite Hl. cbn [obind]. eexists. reflexivity. }
  destruct H as [[f p] H].
  exists f, p, l. split; [exact H|]. split; [exact Hl|].
  destruct (power_is_mean_square _ _ _ _ _ _ H Hl) as [_ E].
  destruct (bin_count _ _ _ _ Hl) as [Hc _].
  apply E; [|lia].
  rewrite repeat_length. vm_compute. split; discriminate.
Defined.

(** * Further properties of the routine *)

(** ** The growth of the step *)

(** X2: line 57 (and line 66) makes the step strictly larger as long as
    it is at most 930, by a tenth up to half a sample of rounding; from 931
    on the step is set to the cap 1024, where it stays. *)
Theorem step_grows_to_cap (n : Z) :
  8 <= n <= 1024 ->
  (n <= 930 -> n < grow n /\ 11 * n - 5 <= 10 * grow n <= 11 * n + 5) /\
  (931 <= n -> grow n = 1024).
Proof.
  intros Hn. unfold grow.
  set (a := (inject_Z n * (11 # 10))%Q).
  set (b := inject_Z (2 ^ 10)).
  pose proof (mround_nearest (Qmin a b)) as [H1 H2].
  set (g := mround (Qmin a b)) in *.
  destruct (Q.min_spec a b) as [[Hab He] | [Hab He]];
    rewrite He in H1, H2; subst a b;
    unfold Qle, Qlt, Qminus, Qplus, Qopp, Qmult, inject_Z in *;
    cbn [Qnum Qden] in *; change (2 ^ 10) with 1024 in *; lia.
Qed.

Lemma step_grows_to_cap_witness :
  15 < grow 15 /\ grow 1000 = 1024.
Proof.
  destruct (step_grows_to_cap 15 ltac:(lia)) as [A _].
  destruct (step_grows_to_cap 1000 ltac:(lia)) as [_ B].
  split; [apply A; lia | apply B; lia].
Defined.

(** ** Counting samples and bins *)

Lemma Zsum_diffs (l : list Z) : Zsum (diffs l) = last l 0 - hd 0 l.
Proof.
  induction l as [|x l IH]; [reflexivity|].
  destruct l as [|y l]; [cbn; lia|].
  change (diffs (x :: y :: l)) with ((y - x) :: diffs (y :: l)).
  change (last (x :: y :: l) 0) with (last (y :: l) 0).
  cbn [Zsum fold_right hd] in *. fold (Zsum (diffs (y :: l))). rewrite IH.
  cbn [hd]. lia.
Qed.

Lemma increasing_from (l : list Z) (i : nat) :
  increasing l -> (i < length l)%nat -> nth 0 l 0 + Z.of_nat i <= nth i l 0.
Proof.
  intros H. induction i as [|i IH]; intros Hi; [lia|].
  assert (nth i l 0 < nth (S i) l 0) by (apply increasing_nth; [exact H | lia]).
  specialize (IH ltac:(lia)). lia.
Qed.

(** X3: whenever the routine gets as far as the bins, the widths
    [stopbin[i] - startbin[i] + 1] of all bins add up to [N2], also when
    some of them are zero or negative. *)
Theorem widths_add_up_to_half
  (X : list C) (tbin : Z) (f0 : Q) (l : locals) :
  bplogsmooth_locals X tbin f0 = Returns l ->
  Zsum (widths l) = loc_N2 l /\ loc_N2 l = Z.of_nat (length X) / 2.
Proof.
  intros H. destruct (locals_inv _ _ _ _ H) as [_ Hb].
  destruct (returns_anatomy _ _ _ _ Hb)
    as (_ & _ & _ & EN2 & _ & _ & _ & HA & _).
  split; [|exact EN2].
  rewrite (assembled_widths l HA), Zsum_diffs.
  unfold boundaries. cbn [hd].
  replace (0 :: rev (lsb2 l) ++ map (fun x => x - 1) (tl (usb1 l)) ++ [loc_N2 l])
    with ((0 :: rev (lsb2 l) ++ map (fun x => x - 1) (tl (usb1 l))) ++ [loc_N2 l])
    by (cbn [app]; rewrite <- app_assoc; reflexivity).
  rewrite last_last. lia.
Qed.

Lemma widths_add_up_to_half_witness :
  exists l,
    bplogsmooth_locals (repeat C0 100) 65 (3 # 10) = Returns l /\
    Zsum (widths l) = 50.
Proof.
  assert (H : {l | bplogsmooth_locals (repeat C0 100) 65 (3 # 10) = Returns l})
    by (eexists; run_locals).
  destruct H as [l H]. exists l. split; [exact H|].
  destruct (widths_add_up_to_half _ _ _ _ H) as [E1 E2].
  rewrite E1, E2, repeat_length. reflexivity.
Defined.

(** X4: whenever the routine returns there are at least two output
    points, one for each entry of [lsb2] and of [usb1]; when the tone region
    lies inside the half spectrum ([well_placed]) there are at most [N2]. *)
Theorem number_of_output_points
  (X : list C) (tbin : Z) (f0 : Q) (f : list Q) (p : list R) (l : locals) :
  bplogsmooth X tbin f0 = Returns (f, p) ->
  bplogsmooth_locals X tbin f0 = Returns l ->
  length f = (length (lsb2 l) + length (usb1 l))%nat /\
  (2 <= length f)%nat /\
  (well_placed (Z.of_nat (length X)) tbin f0 ->
   Z.of_nat (length f) <= Z.of_nat (length X) / 2).
Proof.
  intros H Hl. destruct (bplogsmooth_inv _ _ _ _ _ H) as (l' & Hl' & -> & _).
  assert (l' = l) by congruence. subst l'.
  destruct (locals_inv _ _ _ _ Hl) as [_ Hb].
  destruct (returns_geometry _ _ _ _ Hb)
    as (Le & Lb & Ls & HL & HU & B0 & Bn & _ & _ & _ & Hwp).
  rewrite length_map, length_combine, Le, Nat.min_id.
  split; [exact Ls|]. split; [lia|].
  intros WP. specialize (Hwp WP).
  pose proof (increasing_from _ (length (startbin l)) Hwp ltac:(lia)) as A.
  rewrite B0, Bn in A. lia.
Qed.

Lemma number_of_output_points_witness :
  exists f p,
    bplogsmooth (repeat C0 40) 13 (1 # 4) = Returns (f, p) /\
    (2 <= length f)%nat /\ Z.of_nat (length f) <= 20.
Proof.
  assert (Hl : {l | bplogsmooth_locals (repeat C0 40) 13 (1 # 4) = Returns l})
    by (eexists; run_locals).
  destruct Hl as [l Hl].
  assert (H : {fp | bplogsmooth (repeat C0 40) 13 (1 # 4) = Returns fp}).
  { unfold bplogsmooth. rewrite Hl. cbn [obind]. eexists. reflexivity. }
  destruct H as [[f p] H].
  exists f, p. split; [exact H|].
  destruct (number_of_output_points _ _ _ _ _ _ H Hl) as (_ & A & B).
  split; [exact A|].
  rewrite repeat_length in B. apply B. vm_compute. split; discriminate.
Defined.

(** ** The bins at the tone *)

Lemma returns_edges (N tbin : Z) (f0 : Q) (l : locals) :
  bin_edges N tbin f0 = Returns l ->
  exists extU extL,
    l = assemble N tbin (mround (f0 * inject_Z N))
          (usb1_init tbin (mround (f0 * inject_Z N)) ++ extU)
          (lsb2_init tbin (mround (f0 * inject_Z N)) ++ map Z.opp extL).
Proof.
  intros H.
  destruct (bin_edges_run N tbin f0)
    as [[_ E] | [(_ & _ & E) | (_ & _ & extU & extL & _ & _ & E)]];
    rewrite E in H; try discriminate.
  exists extU, extL. congruence.
Qed.

Lemma combine_app_same {A B : Type} (p p' : list A) (q q' : list B) :
  length p = length q ->
  combine (p ++ p') (q ++ q') = combine p q ++ combine p' q'.
Proof.
  revert q. induction p as [|x p IH]; intros [|y q] H; try discriminate.
  - reflexivity.
  - cbn [app combine]. rewrite IH by (cbn [length] in H; lia). reflexivity.
Qed.

Lemma combine_map_both {A B A' B' : Type} (g : A -> A') (h : B -> B')
      (p : list A) (q : list B) :
  combine (map g p) (map h q) = map (fun ab => (g (fst ab), h (snd ab))) (combine p q).
Proof.
  revert q. induction p as [|x p IH]; intros [|y q]; try reflexivity.
  cbn [map combine fst snd]. rewrite IH. reflexivity.
Qed.

(** Neighbours in a list of start edges are the two ends of a bin. *)
Lemma neighbours_in_combine (p q : list Z) (a b z : Z) :
  In (a, b - 1)
     (combine (p ++ a :: b :: q)
              (map (fun x => x - 1) (tl (p ++ a :: b :: q)) ++ [z])).
Proof.
  induction p as [|x p IH]; [left; reflexivity|].
  cbn [app tl]. destruct (p ++ a :: b :: q) as [|r0 r] eqn:E.
  - destruct p; discriminate.
  - cbn [map app combine]. right. exact IH.
Qed.

Lemma stride_ends (k : nat) (a : Z) :
  exists t, stride k a = t ++ [a + 8 * Z.of_nat k].
Proof.
  assert (Hne : stride k a <> []) by (destruct k; discriminate).
  destruct (exists_last Hne) as [t [y E]]. exists t.
  pose proof (stride_last k a) as L. rewrite E, last_last in L.
  rewrite E, L. reflexivity.
Qed.

Lemma nth_after_rev (a : Z) (t rest : list Z) :
  nth (length (a :: t)) (0 :: rev (a :: t) ++ rest) 0 = a.
Proof.
  cbn [length nth rev]. rewrite <- app_assoc. cbn [app].
  rewrite <- (length_rev t). apply nth_middle.
Qed.

(** X5: whenever the routine gets as far as the bins, the first
    upper-sideband bin starts at sample [bin1 - 1], between 1 and 7 samples
    above [bin0 - 1]; one bin starts exactly at the tone, sample
    [tbin - 1]; and when [bind >= 3] that bin holds the three samples
    [tbin - 1] to [tbin + 1] only. *)
Theorem bins_at_the_tone
  (X : list C) (tbin : Z) (f0 : Q) (l : locals) :
  bplogsmooth_locals X tbin f0 = Returns l ->
  1 <= loc_bind l <= 7 /\
  loc_bin1 l = loc_bin0 l + loc_bind l /\
  nth (length (lsb2 l)) (startbin l) 0 = loc_bin1 l - 1 /\
  In (tbin - 1) (startbin l) /\
  (3 <= loc_bind l ->
   In (tbin - 1, tbin + 1) (combine (startbin l) (stopbin l))).
Proof.
  intros H. destruct (locals_inv _ _ _ _ H) as [_ Hb].
  destruct (returns_anatomy _ _ _ _ Hb)
    as (Hlt & Hbind & _ & _ & Eb0 & Eb1 & Ebd & HA & _).
  destruct (returns_geometry _ _ _ _ Hb)
    as (Le & _ & Ls & HL & HU & _ & _ & _ & Hnth & _).
  destruct (returns_edges _ _ _ _ Hb) as (extU & extL & El).
  set (bin0 := mround (f0 * inject_Z (Z.of_nat (length X)))) in *.
  assert (EU : usb1 l = usb1_init tbin bin0 ++ extU) by (rewrite El; reflexivity).
  assert (EL : lsb2 l = lsb2_init tbin bin0 ++ map Z.opp extL)
    by (rewrite El; reflexivity).
  assert (Hd := Z.div_mod (tbin - bin0) 8 ltac:(lia)).
  assert (Hk : 0 <= (tbin - bin0) / 8) by (apply Z.div_pos; lia).
  destruct (stride_ends (Z.to_nat ((tbin - bin0) / 8)) ((tbin - bin0) mod 8 + bin0))
    as [t Et].
  replace ((tbin - bin0) mod 8 + bin0 + 8 * Z.of_nat (Z.to_nat ((tbin - bin0) / 8)))
    with tbin in Et by lia.
  destruct HA as (E2 & E1 & Es & Ee & _).
  split; [rewrite Ebd; exact Hbind|].
  split; [rewrite Eb1, Eb0, Ebd; lia|].
  split; [|split].
  - destruct (Hnth (length (lsb2 l)) ltac:(lia)) as [-> _].
    unfold boundaries. rewrite Eb1, EL. unfold lsb2_init.
    cbn [app]. rewrite nth_after_rev. reflexivity.
  - rewrite Es, EU. unfold usb1_init. rewrite Et.
    apply (in_map (fun x => x - 1)). apply in_or_app. right.
    apply in_or_app. left. apply in_or_app. left. apply in_or_app. right.
    left. reflexivity.
  - intros H3. rewrite Ebd in H3.
    rewrite Es, Ee, !map_app.
    rewrite combine_app_same
      by (rewrite !length_map, !length_rev, E1, length_app, length_map;
          cbn [length]; destruct (lsb2 l); cbn [tl length] in *; lia).
    apply in_or_app. right.
    rewrite combine_map_both, E2, EU. unfold usb1_init. rewrite Et.
    apply Z.leb_le in H3. rewrite H3. rewrite <- !app_assoc. cbn [app].
    apply in_map_iff. exists (tbin, tbin + 3 - 1).
    split; [cbn [fst snd]; f_equal; lia|].
    apply neighbours_in_combine.
Qed.

Lemma bins_at_the_tone_witness :
  exists l,
    bplogsmooth_locals (repeat C0 4097) 1045 (1 # 8) = Returns l /\
    In (1044, 1046) (combine (startbin l) (stopbin l)).
Proof.
  assert (H : {l | bplogsmooth_locals (repeat C0 4097) 1045 (1 # 8) = Returns l})
    by (eexists; run_locals).
  destruct H as [l H]. exists l. split; [exact H|].
  destruct (bins_at_the_tone _ _ _ _ H) as (_ & _ & _ & _ & E).
  apply E.
  destruct (locals_inv _ _ _ _ H) as [_ Hb].
  destruct (returns_anatomy _ _ _ _ Hb) as (_ & _ & _ & _ & _ & _ & -> & _).
  rewrite repeat_length. vm_compute. discriminate.
Defined.

(** ** The range of the frequencies *)

Lemma centre_range (N : Z) (f0 : Q) (a b : Z) :
  0 < N -> 0 <= a + b < N ->
  (- f0 <= centre N f0 a b /\ centre N f0 a b < (1 # 2) - f0)%Q.
Proof.
  intros HN Hab. unfold centre.
  set (y := (inject_Z (a + b) / 2 / inject_Z N)%Q).
  assert (Hy : (0 <= y /\ y < 1 # 2)%Q).
  { subst y. destruct N as [|n|n]; try lia.
    unfold Qle, Qlt, Qdiv, Qmult, Qinv, inject_Z. cbn [Qnum Qden].
    split; nia. }
  destruct Hy. split; Lqa.lra.
Qed.

(** X6: when the tone region lies inside the half spectrum
    ([well_placed]), every output frequency lies in the half band shifted
    by [f0]: [-f0 <= f_i < 1/2 - f0]. *)
Theorem frequencies_in_half_band
  (X : list C) (tbin : Z) (f0 : Q) (f : list Q) (p : list R) :
  bplogsmooth X tbin f0 = Returns (f, p) ->
  well_placed (Z.of_nat (length X)) tbin f0 ->
  forall i, (i < length f)%nat ->
    (- f0 <= nth i f 0 /\ nth i f 0 < (1 # 2) - f0)%Q.
Proof.
  intros H WP i Hi.
  destruct (bplogsmooth_inv _ _ _ _ _ H) as (l & Hl & -> & _).
  destruct (locals_inv _ _ _ _ Hl) as [_ Hb].
  destruct (returns_anatomy _ _ _ _ Hb) as (Hlt & _ & EN & EN2 & _).
  destruct (bin_count _ _ _ _ Hl) as [_ Le].
  destruct (well_placed_partition X tbin f0 l Hl WP) as (P1 & P2 & _ & _).
  pose proof (well_placed_length _ _ _ Hlt WP) as HN.
  rewrite length_map, length_combine, Le, Nat.min_id in Hi.
  rewrite nth_map_combine by assumption. cbn [fst snd].
  specialize (P1 i Hi).
  assert (A : in_bin l i (nth i (startbin l) 0)) by (split; [exact Hi | lia]).
  assert (B : in_bin l i (nth i (stopbin l) 0)) by (split; [exact Hi | lia]).
  apply P2 in A. apply P2 in B.
  pose proof (Z.div_mod (Z.of_nat (length X)) 2 ltac:(lia)).
  pose proof (Z.mod_pos_bound (Z.of_nat (length X)) 2 ltac:(lia)).
  apply centre_range; lia.
Qed.

Lemma frequencies_in_half_band_witness :
  exists f p,
    bplogsmooth (repeat C0 40) 13 (1 # 4) = Returns (f, p) /\
    (- (1 # 4) <= nth 0 f 0 /\ nth 0 f 0 < (1 # 2) - (1 # 4))%Q.
Proof.
  assert (Hl : {l | bplogsmooth_locals (repeat C0 40) 13 (1 # 4) = Returns l})
    by (eexists; run_locals).
  destruct Hl as [l Hl].
  assert (H : {fp | bplogsmooth (repeat C0 40) 13 (1 # 4) = Returns fp}).
  { unfold bplogsmooth. rewrite Hl. cbn [obind]. eexists. reflexivity. }
  destruct H as [[f p] H].
  exists f, p. split; [exact H|].
  assert (WP : well_placed (Z.of_nat (length (repeat C0 40))) 13 (1 # 4))
    by (rewrite repeat_length; vm_compute; split; discriminate).
  apply (frequencies_in_half_band _ _ _ _ _ H WP).
  destruct (bplogsmooth_inv _ _ _ _ _ H) as (l' & Hl' & -> & _).
  destruct (bin_count _ _ _ _ Hl') as [Hc Le].
  rewrite length_map, length_combine, Le, Nat.min_id. lia.
Defined.

(** ** Which samples are read *)

Lemma shape0_same_length {A : Type} (X Y : list A) :
  length X = length Y -> shape0 X = shape0 Y.
Proof.
  intros H. destruct X as [|x [|x' X]]; destruct Y as [|y [|y' Y]];
    try discriminate; cbn [shape0]; congruence.
Qed.

Lemma slice_of_prefix {A : Type} (X : list A) (a n m : nat) :
  (a + n <= m)%nat ->
  firstn n (skipn a X) = firstn n (skipn a (firstn m X)).
Proof.
  intros H. rewrite !firstn_skipn_comm, firstn_firstn, Nat.min_l by lia.
  reflexivity.
Qed.

Lemma In_combine_nth (s e : list Z) (ab : Z * Z) :
  length e = length s -> In ab (combine s e) ->
  exists i, (i < length s)%nat /\ ab = (nth i s 0, nth i e 0).
Proof.
  intros Hl Hin. apply (In_nth _ _ (0, 0)) in Hin.
  destruct Hin as (i & Hi & E).
  rewrite length_combine, Hl, Nat.min_id in Hi.
  exists i. split; [exact Hi|].
  rewrite combine_nth in E by congruence. congruence.
Qed.

(** X7: when the tone region lies inside the half spectrum
    ([well_placed]), the result depends on the length of [X] and on its
    first [N2] samples only: the samples [X[N2]] and beyond are never
    read. *)
Theorem only_first_half_is_read (X Y : list C) (tbin : Z) (f0 : Q) :
  length X = length Y ->
  firstn (Z.to_nat (Z.of_nat (length X) / 2)) X
    = firstn (Z.to_nat (Z.of_nat (length X) / 2)) Y ->
  well_placed (Z.of_nat (length X)) tbin f0 ->
  bplogsmooth X tbin f0 = bplogsmooth Y tbin f0.
Proof.
  intros HL HF WP.
  assert (EL : bplogsmooth_locals X tbin f0 = bplogsmooth_locals Y tbin f0).
  { unfold bplogsmooth_locals. rewrite (shape0_same_length X Y HL).
    destruct (shape0 Y); reflexivity. }
  unfold bplogsmooth. rewrite <- EL.
  destruct (bplogsmooth_locals X tbin f0) as [l| |] eqn:Hl; try reflexivity.
  cbn [obind]. do 2 f_equal.
  apply map_ext_in. intros ab Hin.
  destruct (bin_count _ _ _ _ Hl) as [_ Le].
  destruct (In_combine_nth _ _ _ Le Hin) as (i & Hi & ->). cbn [fst snd].
  destruct (well_placed_partition X tbin f0 l Hl WP) as (P1 & P2 & _ & _).
  destruct (locals_inv _ _ _ _ Hl) as [_ Hb].
  destruct (returns_geometry _ _ _ _ Hb)
    as (_ & _ & _ & _ & _ & _ & _ & EN2 & _).
  specialize (P1 i Hi).
  assert (A : in_bin l i (nth i (startbin l) 0)) by (split; [exact Hi | lia]).
  assert (B : in_bin l i (nth i (stopbin l) 0)) by (split; [exact Hi | lia]).
  apply P2 in A. apply P2 in B.
  pose proof (Z.div_mod (Z.of_nat (length X)) 2 ltac:(lia)).
  pose proof (Z.mod_pos_bound (Z.of_nat (length X)) 2 ltac:(lia)).
  set (a := nth i (startbin l) 0) in *. set (b := nth i (stopbin l) 0) in *.
  f_equal. unfold bin_power. f_equal. f_equal.
  unfold py_slice, py_index. rewrite <- HL.
  destruct (Z.ltb_spec a 0); [lia|]. destruct (Z.ltb_spec (b + 1) 0); [lia|].
  rewrite !Z.min_l by lia.
  rewrite (slice_of_prefix X _ _ (Z.to_nat (Z.of_nat (length X) / 2))) by lia.
  rewrite (slice_of_prefix Y _ _ (Z.to_nat (Z.of_nat (length X) / 2))) by lia.
  rewrite HF. reflexivity.
Qed.

Lemma only_first_half_is_read_witness :
  bplogsmooth (repeat C0 40) 13 (1 # 4)
    = bplogsmooth (repeat C0 20 ++ repeat (1, 0)%R 20) 13 (1 # 4).
Proof.
  apply only_first_half_is_read.
  - rewrite length_app, !repeat_length. reflexivity.
  - rewrite repeat_length.
    change (Z.to_nat (Z.of_nat 40 / 2)) with (length (repeat C0 20)) at 2.
    rewrite firstn_exact. reflexivity.
  - rewrite repeat_length. vm_compute. split; discriminate.
Defined.

(** ** The powers add up *)

Lemma Rsum_app (u v : list R) : Rsum (u ++ v) = (Rsum u + Rsum v)%R.
Proof.
  induction u as [|x u IH].
  - cbn [app]. change (Rsum []) with 0%R. ring.
  - cbn [app]. change (Rsum (?a :: ?t)) with (a + Rsum t)%R.
    rewrite IH. ring.
Qed.

Lemma firstn_plus {A : Type} (n m : nat) (l : list A) :
  firstn (n + m) l = firstn n l ++ firstn m (skipn n l).
Proof.
  revert l. induction n as [|n IH]; intros l; [reflexivity|].
  destruct l as [|x l]; [cbn; rewrite firstn_nil; reflexivity|].
  cbn [Nat.add firstn skipn app]. rewrite IH. reflexivity.
Qed.

Lemma increasing_hd_last (l : list Z) :
  increasing l -> l <> [] -> hd 0 l <= last l 0.
Proof.
  induction l as [|x l IH]; [congruence|]. intros H _.
  destruct l as [|y l]; [cbn; lia|].
  unfold increasing in *.
  change (diffs (x :: y :: l)) with ((y - x) :: diffs (y :: l)) in H.
  inversion H as [|? ? Hxy Ht]; subst.
  specialize (IH Ht ltac:(discriminate)).
  change (last (x :: y :: l) 0) with (last (y :: l) 0).
  cbn [hd] in *. lia.
Qed.

(** The bins cut out by increasing boundaries inside the array hold, all
    together, the samples between the first and the last boundary. *)
Lemma chunks_sum (X : list C) (b : list Z) :
  increasing b -> b <> [] -> 0 <= hd 0 b -> last b 0 <= Z.of_nat (length X) ->
  Rsum (map (fun ab => (IZR (snd ab - fst ab + 1)
                        * bin_power X (fst ab) (snd ab))%R)
            (combine (removelast b) (map (fun x => x - 1) (tl b))))
  = Rsum (map Cnorm2
              (firstn (Z.to_nat (last b 0 - hd 0 b))
                      (skipn (Z.to_nat (hd 0 b)) X))).
Proof.
  induction b as [|x b IH]; [congruence|]. intros Hinc _ H0 Hlast.
  destruct b as [|y b].
  - cbn [removelast tl map combine last hd]. rewrite Z.sub_diag. reflexivity.
  - assert (Hinc' : increasing (y :: b)).
    { unfold increasing in *.
      change (diffs (x :: y :: b)) with ((y - x) :: diffs (y :: b)) in Hinc.
      inversion Hinc; assumption. }
    assert (Hxy : x < y).
    { unfold increasing in Hinc.
      change (diffs (x :: y :: b)) with ((y - x) :: diffs (y :: b)) in Hinc.
      inversion Hinc; lia. }
    pose proof (increasing_hd_last _ Hinc' ltac:(discriminate)) as Hyl.
    change (last (x :: y :: b) 0) with (last (y :: b) 0) in *.
    cbn [hd] in *.
    specialize (IH Hinc' ltac:(discriminate) ltac:(lia) Hlast).
    change (removelast (x :: y :: b)) with (x :: removelast (y :: b)).
    cbn [tl map combine fst snd] in *.
    change (Rsum (?a :: ?t)) with (a + Rsum t)%R.
    rewrite IH.
    rewrite bin_power_in_range by lia.
    unfold mean_power.
    replace (y - 1) with (x + Z.of_nat (Z.to_nat (y - x)) - 1) at 2 by lia.
    rewrite samples_in_range by lia.
    replace (Z.to_nat (last (y :: b) 0 - x))
      with (Nat.add (Z.to_nat (y - x)) (Z.to_nat (last (y :: b) 0 - y))) by lia.
    rewrite firstn_plus, map_app, Rsum_app, skipn_skipn.
    replace (Nat.add (Z.to_nat (y - x)) (Z.to_nat x)) with (Z.to_nat y) by lia.
    assert (Hw : (IZR (y - 1 - x + 1) <> 0)%R).
    { apply not_0_IZR. lia. }
    field. exact Hw.
Qed.

(** X8: when the tone region lies inside the half spectrum
    ([well_placed]), averaging loses no power: the bin means weighted by
    the bin widths add up to the sum of the squared magnitudes of the
    first [N2] samples. *)
Theorem power_is_conserved
  (X : list C) (tbin : Z) (f0 : Q) (l : locals) :
  bplogsmooth_locals X tbin f0 = Returns l ->
  well_placed (Z.of_nat (length X)) tbin f0 ->
  Rsum (map (fun ab => (IZR (snd ab - fst ab + 1)
                        * bin_power X (fst ab) (snd ab))%R)
            (combine (startbin l) (stopbin l)))
  = Rsum (map Cnorm2 (firstn (Z.to_nat (loc_N2 l)) X)).
Proof.
  intros H WP. destruct (locals_inv _ _ _ _ H) as [_ Hb].
  destruct (returns_anatomy _ _ _ _ Hb)
    as (_ & _ & _ & EN2 & _ & _ & _ & HA & _).
  pose proof (boundaries_increasing _ _ _ _ Hb WP) as Hinc.
  rewrite (assembled_startbin l HA), (assembled_stopbin l HA).
  assert (Hlast : last (boundaries l) 0 = loc_N2 l).
  { unfold boundaries.
    replace (0 :: rev (lsb2 l) ++ map (fun x => x - 1) (tl (usb1 l)) ++ [loc_N2 l])
      with ((0 :: rev (lsb2 l) ++ map (fun x => x - 1) (tl (usb1 l))) ++ [loc_N2 l])
      by (cbn [app]; rewrite <- app_assoc; reflexivity).
    apply last_last. }
  rewrite chunks_sum.
  - rewrite Hlast. unfold boundaries. cbn [hd]. rewrite Z.sub_0_r. reflexivity.
  - exact Hinc.
  - unfold boundaries. discriminate.
  - unfold boundaries. cbn [hd]. lia.
  - rewrite Hlast, EN2.
    pose proof (Z.div_mod (Z.of_nat (length X)) 2 ltac:(lia)).
    pose proof (Z.mod_pos_bound (Z.of_nat (length X)) 2 ltac:(lia)). lia.
Qed.

Lemma power_is_conserved_witness :
  exists l,
    bplogsmooth_locals (repeat (3, 4)%R 40) 13 (1 # 4) = Returns l /\
    Rsum (map (fun ab => (IZR (snd ab - fst ab + 1)
                          * bin_power (repeat (3, 4)%R 40) (fst ab) (snd ab))%R)
              (combine (startbin l) (stopbin l)))
    = Rsum (map Cnorm2 (firstn (Z.to_nat (loc_N2 l)) (repeat (3, 4)%R 40))).
Proof.
  assert (H : {l | bplogsmooth_locals (repeat (3, 4)%R 40) 13 (1 # 4) = Returns l})
    by (eexists; run_locals).
  destruct H as [l H]. exists l. split; [exact H|].
  apply (power_is_conserved _ _ _ _ H).
  rewrite repeat_length. vm_compute. split; discriminate.
Defined.

(** ** The power ratio handed to [dbp] *)

Lemma norm1_nonneg (v : list C) : (0 <= norm1 v)%R.
Proof.
  induction v as [|z v IH]; [cbn; Lra.lra|].
  change (norm1 (z :: v)) with (Cmod z + norm1 v)%R.
  pose proof (sqrt_pos (fst z * fst z + snd z * snd z)) as Hz.
  unfold Cmod. Lra.lra.
Qed.

(** X9: the ratio handed to [dbp] at line 76 is never negative, whatever
    the bin, also for a bin of negative width. *)
Theorem power_ratio_is_never_negative (X : list C) (a b : Z) :
  (0 <= bin_power X a b)%R.
Proof. unfold bin_power. apply norm1_nonneg. Qed.

Lemma Cmod_scaled (c : R) (z : C) (w : R) :
  Cmod (Cscale (Csqr (Crmul c z)) w)
  = (c * c * Cmod (Cscale (Csqr z) w))%R.
Proof.
  destruct z as [a b]. unfold Cmod, Cscale, Csqr, Cmul, Crmul. cbn [fst snd].
  replace ((c * a * (c * a) - c * b * (c * b)) / w
           * ((c * a * (c * a) - c * b * (c * b)) / w)
           + (c * a * (c * b) + c * b * (c * a)) / w
             * ((c * a * (c * b) + c * b * (c * a)) / w))%R
    with ((c * c) * (c * c)
          * ((a * a - b * b) / w * ((a * a - b * b) / w)
             + (a * b + b * a) / w * ((a * b + b * a) / w)))%R
    by (unfold Rdiv; ring).
  assert (Hc : (0 <= c * c)%R) by Lra.nra.
  rewrite sqrt_mult_alt by Lra.nra.
  rewrite sqrt_square by exact Hc. reflexivity.
Qed.

Lemma py_slice_map {A B : Type} (g : A -> B) (X : list A) (a b : Z) :
  py_slice (map g X) a b = map g (py_slice X a b).
Proof.
  unfold py_slice. rewrite length_map, skipn_map, firstn_map. reflexivity.
Qed.

Lemma bin_power_scaled (c : R) (X : list C) (a b : Z) :
  bin_power (map (Crmul c) X) a b = (c * c * bin_power X a b)%R.
Proof.
  unfold bin_power. rewrite py_slice_map, map_map.
  induction (py_slice X a (b + 1)) as [|z v IH]; [cbn; ring|].
  cbn [map]. change (norm1 (?x :: ?t)) with (Cmod x + norm1 t)%R.
  rewrite IH, Cmod_scaled. ring.
Qed.

Lemma dbp_mult (c x : R) :
  (0 < c)%R -> (0 < x)%R -> dbp (c * x) = (dbp x + dbp c)%R.
Proof.
  intros Hc Hx. unfold dbp. rewrite ln_mult by assumption.
  assert (ln 10 <> 0%R) by (apply ln_neq_0; Lra.lra).
  field. assumption.
Qed.

(** X10: multiplying every sample of [X] by a real factor [c] leaves the
    frequencies and the bins as they are and multiplies the power ratio of
    every bin by [c^2]; for [c <> 0], every output power whose ratio is
    positive moves by [dbp(c^2)]. *)
Theorem scaling_the_spectrum
  (X : list C) (tbin : Z) (f0 : Q) (c : R) (f : list Q) (p : list R) (l : locals) :
  bplogsmooth X tbin f0 = Returns (f, p) ->
  bplogsmooth_locals X tbin f0 = Returns l ->
  bplogsmooth_locals (map (Crmul c) X) tbin f0 = Returns l /\
  (forall a b, bin_power (map (Crmul c) X) a b = (c * c * bin_power X a b)%R) /\
  exists p',
    bplogsmooth (map (Crmul c) X) tbin f0 = Returns (f, p') /\
    length p' = length p /\
    (c <> 0%R ->
     forall i, (i < length p)%nat ->
       (0 < bin_power X (nth i (startbin l) 0%Z) (nth i (stopbin l) 0%Z))%R ->
       nth i p' 0%R = (nth i p 0 + dbp (c * c))%R).
Proof.
  intros H Hl.
  assert (EL : bplogsmooth_locals (map (Crmul c) X) tbin f0 = Returns l).
  { rewrite <- Hl. unfold bplogsmooth_locals.
    rewrite (shape0_same_length (map (Crmul c) X) X) by apply length_map.
    reflexivity. }
  split; [exact EL|]. split; [intros a b; apply bin_power_scaled|].
  destruct (bplogsmooth_inv _ _ _ _ _ H) as (l' & Hl' & Ef & Ep).
  assert (l' = l) by congruence. subst l'.
  destruct (bin_count _ _ _ _ Hl) as [_ Le].
  eexists. split; [|split].
  - unfold bplogsmooth. rewrite EL. cbn [obind]. rewrite Ef. reflexivity.
  - rewrite Ep, !length_map. reflexivity.
  - intros Hc i Hi Hpos.
    rewrite Ep, length_map, length_combine, Le, Nat.min_id in Hi.
    rewrite Ep, !nth_map_combine by assumption. cbn [fst snd].
    rewrite bin_power_scaled. apply dbp_mult; [|exact Hpos].
    assert (0 <= c * c)%R by Lra.nra.
    assert (c * c <> 0)%R by (apply Rmult_integral_contrapositive_currified; assumption).
    Lra.lra.
Qed.

Lemma scaling_the_spectrum_witness :
  exists f p l p',
    bplogsmooth (repeat (1, 0)%R 40) 13 (1 # 4) = Returns (f, p) /\
    bplogsmooth_locals (repeat (1, 0)%R 40) 13 (1 # 4) = Returns l /\
    bplogsmooth (map (Crmul 2) (repeat (1, 0)%R 40)) 13 (1 # 4) = Returns (f, p') /\
    length p' = length p.
Proof.
  assert (Hl : {l | bplogsmooth_locals (repeat (1, 0)%R 40) 13 (1 # 4) = Returns l})
    by (eexists; run_locals).
  destruct Hl as [l Hl].
  assert (H : {fp | bplogsmooth (repeat (1, 0)%R 40) 13 (1 # 4) = Returns fp}).
  { unfold bplogsmooth. rewrite Hl. cbn [obind]. eexists. reflexivity. }
  destruct H as [[f p] H].
  destruct (scaling_the_spectrum _ _ _ 2%R _ _ _ H Hl) as (_ & _ & p' & E1 & E2 & _).
  exists f, p, l, p'. repeat split; assumption.
Defined.

(** ** The same steps on both sides *)

Lemma steps_nth (k : nat) :
  forall n j, (j < k)%nat -> nth j (steps k n) 0 = Nat.iter j grow n.
Proof.
  induction k as [|k IH]; intros n j Hj; [lia|].
  cbn [steps]. destruct j as [|j]; [reflexivity|].
  cbn [nth]. rewrite IH by lia. rewrite Nat.iter_succ_r. reflexivity.
Qed.

(** X11: whenever the routine gets as far as the bins, the widths of the
    lower sideband, from the tone outwards and without the outermost bin,
    are 8 (once more when [bind >= 5]) followed by the steps 8, [grow 8],
    [grow (grow 8)], ...; those of the upper sideband are 8 for each whole
    8-sample bin between [bin1] and [tbin], 3 when [bind >= 3], and then
    the same steps: the [j]-th grown bin is as wide above the tone as
    below. *)
Theorem sidebands_share_the_steps
  (X : list C) (tbin : Z) (f0 : Q) (l : locals) :
  bplogsmooth_locals X tbin f0 = Returns l ->
  exists kl ku,
    removelast (lower_widths l) =
      (if 5 <=? loc_bind l then [8] else []) ++ steps kl 8 /\
    removelast (upper_widths l) =
      repeat 8 (Z.to_nat ((tbin - loc_bin0 l) / 8))
        ++ (if 3 <=? loc_bind l then [3] else []) ++ steps ku 8 /\
    (forall j, (j < kl)%nat -> nth j (steps kl 8) 0 = Nat.iter j grow 8) /\
    (forall j, (j < ku)%nat -> nth j (steps ku 8) 0 = Nat.iter j grow 8).
Proof.
  intros H. destruct (locals_inv _ _ _ _ H) as [_ Hb].
  destruct (returns_anatomy _ _ _ _ Hb) as (_ & _ & _ & _ & Eb0 & _ & Ebd & _).
  destruct (returns_widths _ _ _ _ Hb) as (kl & ku & EL & EU & _).
  exists kl, ku. rewrite EL, EU, !removelast_last, Eb0, Ebd.
  split; [reflexivity|]. split; [reflexivity|].
  split; intros j Hj; apply steps_nth; exact Hj.
Qed.

Lemma sidebands_share_the_steps_witness :
  exists l kl ku,
    bplogsmooth_locals (repeat C0 4097) 1045 (1 # 8) = Returns l /\
    removelast (lower_widths l) =
      (if 5 <=? loc_bind l then [8] else []) ++ steps kl 8 /\
    removelast (upper_widths l) =
      repeat 8 (Z.to_nat ((1045 - loc_bin0 l) / 8))
        ++ (if 3 <=? loc_bind l then [3] else []) ++ steps ku 8.
Proof.
  assert (H : {l | bplogsmooth_locals (repeat C0 4097) 1045 (1 # 8) = Returns l})
    by (eexists; run_locals).
  destruct H as [l H].
  destruct (sidebands_share_the_steps _ _ _ _ H) as (kl & ku & E1 & E2 & _).
  exists l, kl, ku. repeat split; assumption.
Defined.
